(** * MPMCQueue: a bounded ring-buffer queue with per-slot versions

    Shallow embedding of [src/MPMCQueue.h] and the properties of its
    sequential behaviour.

    - [uint64_t] and [size_t] values are integers in [0, 2^64); every
      addition and multiplication of the source is written with its
      wrap-around ([add64], [mul64]).
    - The ring storage [m_items] is a pointer: [None] is the null pointer,
      [Some cells] a block holding [cells].  Indexing outside the block, a
      store through the null pointer, a remainder by zero and a read of a
      payload that was never assigned are undefined behaviour in C++; the
      model stops with [Undefined] there.
    - A member function is a computation of the state-and-failure monad
      [M]: it reads and updates the queue object and yields its result. *)

From stdpp Require Import base tactics option list numbers strings.
From Stdlib Require Import ZArith Lia.

Open Scope Z_scope.

(** ** Machine integers *)

Definition two64 : Z := 2 ^ 64.
Definition add64 (a b : Z) : Z := (a + b) mod two64.
Definition mul64 (a b : Z) : Z := (a * b) mod two64.

(** ** Outcomes of a computation *)

Inductive outcome (A : Type) : Type :=
  | Done (a : A)
  | Undefined.
Arguments Done {A} a.
Arguments Undefined {A}.

Section Queue.

(** The element type of the template, and [sizeof(Item)] for it. *)
Variable T : Type.
Variable sizeof_Item : Z.

(** [struct Item { std::atomic<uint64_t> version; T value; }]; a payload
    that has not been assigned yet is [None]. *)
Record Item : Type := mkItem {
  version : Z;
  value : option T
}.

Record MPMCQueue : Type := mkQueue {
  m_items : option (list Item);
  m_capacity : Z;
  m_head : Z;
  m_tail : Z
}.

(** ** The monad of member functions *)

Definition M (A : Type) : Type := MPMCQueue -> outcome (A * MPMCQueue).

Definition ret {A} (a : A) : M A := fun q => Done (a, q).

Definition bind {A B} (m : M A) (k : A -> M B) : M B :=
  fun q => match m q with
           | Done (a, q') => k a q'
           | Undefined => Undefined
           end.

Definition undefined {A} : M A := fun _ => Undefined.

#[local] Instance M_ret : MRet M := @ret.
#[local] Instance M_bind : MBind M := fun A B k m => bind m k.

(** ** Primitive accesses to the object *)

(** [m_tail.load()], [m_head.load()], and the read of [m_capacity]. *)
Definition load_tail : M Z := fun q => Done (m_tail q, q).
Definition load_head : M Z := fun q => Done (m_head q, q).
Definition read_capacity : M Z := fun q => Done (m_capacity q, q).

(** [a % b] on unsigned operands. *)
Definition urem (a b : Z) : M Z :=
  if b =? 0 then undefined else ret (a mod b).

(** [m_items[i]] as an lvalue: the cell must lie inside the block. *)
Definition item_at (i : Z) : M Item :=
  fun q => match m_items q with
           | None => Undefined
           | Some cells =>
               match cells !! Z.to_nat i with
               | Some it => Done (it, q)
               | None => Undefined
               end
           end.

Definition set_item (i : Z) (it : Item) : M unit :=
  fun q => match m_items q with
           | None => Undefined
           | Some cells =>
               if decide (Z.to_nat i < length cells)%nat then
                 Done (tt, mkQueue (Some (<[Z.to_nat i := it]> cells))
                                   (m_capacity q) (m_head q) (m_tail q))
               else Undefined
           end.

(** [m_items[i].version.load()] and [m_items[i].version.store(v)]. *)
Definition version_load (i : Z) : M Z :=
  it ← item_at i; ret (version it).

Definition version_store (i v : Z) : M unit :=
  it ← item_at i; set_item i (mkItem v (value it)).

(** [m_items[i].value = v] and the read of [m_items[i].value]. *)
Definition value_store (i : Z) (v : T) : M unit :=
  it ← item_at i; set_item i (mkItem (version it) (Some v)).

Definition value_load (i : Z) : M T :=
  it ← item_at i;
  match value it with
  | Some v => ret v
  | None => undefined
  end.

(** [m_tail.compare_exchange_strong(expected, desired)] and the same on
    [m_head]: the counter is replaced only when it still holds [expected]. *)
Definition cas_tail (expected desired : Z) : M bool :=
  fun q => if m_tail q =? expected
           then Done (true, mkQueue (m_items q) (m_capacity q) (m_head q) desired)
           else Done (false, q).

Definition cas_head (expected desired : Z) : M bool :=
  fun q => if m_head q =? expected
           then Done (true, mkQueue (m_items q) (m_capacity q) desired (m_tail q))
           else Done (false, q).

(** ** The member functions *)

(** [bool try_enqueue(const T& value)] *)
Definition try_enqueue (v : T) : M bool :=
  tail ← load_tail;
  cap ← read_capacity;
  idx ← urem tail cap;
  ver ← version_load idx;
  if negb (ver =? tail) then ret false
  else
    ok ← cas_tail tail (add64 tail 1);
    if negb ok then ret false
    else
      value_store idx v;;
      version_store idx (add64 tail 1);;
      ret true.

(** [bool try_dequeue(T& out)]: the reference parameter is passed in and
    handed back next to the result. *)
Definition try_dequeue (out : T) : M (bool * T) :=
  head ← load_head;
  cap ← read_capacity;
  idx ← urem head cap;
  ver ← version_load idx;
  if negb (ver =? add64 head 1) then ret (false, out)
  else
    ok ← cas_head head (add64 head 1);
    if negb ok then ret (false, out)
    else
      out' ← value_load idx;
      version_store idx (add64 head cap);;
      ret (true, out').

(** [size_t capacity() const] *)
Definition capacity : M Z := read_capacity.

(** ** Construction *)

(** The block [_aligned_malloc] hands out for a request of [size] bytes:
    room for as many whole items as fit, none of them initialised. *)
Definition raw_Item : Item := mkItem 0 None.

Definition raw_block (size : Z) : list Item :=
  replicate (Z.to_nat (size / sizeof_Item)) raw_Item.

(** The loop [for (i = 0; i < capacity; ++i) m_items[i].version = i],
    with [n] iterations left. *)
Fixpoint init_versions (n : nat) (i : Z) : M unit :=
  match n with
  | O => ret tt
  | S n' => version_store i i ;; init_versions n' (i + 1)
  end.

(** [MPMCQueue(size_t capacity)].  [heap size] tells whether the allocator
    grants a request of [size] bytes or returns the null pointer. *)
Definition construct (heap : Z -> bool) (capacity : Z) : outcome MPMCQueue :=
  let size := mul64 sizeof_Item capacity in
  let items := if heap size then Some (raw_block size) else None in
  match init_versions (Z.to_nat capacity) 0 (mkQueue items capacity 0 0) with
  | Done (_, q) => Done q
  | Undefined => Undefined
  end.

(** ** Sequential clients

    A client performs a list of calls one after the other.  A call to
    [try_dequeue] names the initial content of the variable bound to [out];
    its result reports the content of that variable after the call. *)

Inductive op : Type :=
  | Enqueue (v : T)
  | Dequeue (out : T).

Inductive result : Type :=
  | Enqueued (ok : bool)
  | Dequeued (ok : bool) (out : T).

Definition call (o : op) : M result :=
  match o with
  | Enqueue v => b ← try_enqueue v; ret (Enqueued b)
  | Dequeue out => r ← try_dequeue out; ret (Dequeued r.1 r.2)
  end.

Fixpoint run (ops : list op) : M (list result) :=
  match ops with
  | [] => ret []
  | o :: ops' => r ← call o; rs ← run ops'; ret (r :: rs)
  end.

(** The values accepted by the successful enqueues of a run, and the values
    handed out by its successful dequeues, both in call order. *)
Fixpoint accepted (ops : list op) (rs : list result) : list T :=
  match ops, rs with
  | Enqueue v :: ops', Enqueued true :: rs' => v :: accepted ops' rs'
  | _ :: ops', _ :: rs' => accepted ops' rs'
  | _, _ => []
  end.

Fixpoint delivered (rs : list result) : list T :=
  match rs with
  | Dequeued true v :: rs' => v :: delivered rs'
  | _ :: rs' => delivered rs'
  | [] => []
  end.

(** A state is reachable when a client gets there from a constructed queue
    of capacity [N]; the number of calls is kept below the point where the
    64-bit counters would wrap. *)
Definition reachable (heap : Z -> bool) (N : Z) (q : MPMCQueue) : Prop :=
  exists q0 ops rs,
    construct heap N = Done q0 /\
    Z.of_nat (length ops) + N < two64 /\
    run ops q0 = Done (rs, q).

(** ** The bounded FIFO the queue is meant to implement

    The reference behaviour, on the list of values currently held: an
    enqueue is refused when [N] values are held, a dequeue when none is. *)
Definition fifo_call (N : Z) (o : op) (vs : list T) : result * list T :=
  match o with
  | Enqueue v =>
      if Z.of_nat (length vs) <? N then (Enqueued true, vs ++ [v])
      else (Enqueued false, vs)
  | Dequeue out =>
      match vs with
      | [] => (Dequeued false out, [])
      | v :: vs' => (Dequeued true v, vs')
      end
  end.

Fixpoint fifo_run (N : Z) (ops : list op) (vs : list T) : list result * list T :=
  match ops with
  | [] => ([], vs)
  | o :: ops' =>
      let '(r, vs1) := fifo_call N o vs in
      let '(rs, vs2) := fifo_run N ops' vs1 in
      (r :: rs, vs2)
  end.

(** ** State descriptions *)

(** The state right after construction: slot [i] carries version [i]. *)
Definition initial_cells (N : Z) : list Item :=
  (fun i => mkItem i None) <$> seqZ 0 N.

Definition initial (N : Z) : MPMCQueue :=
  mkQueue (Some (initial_cells N)) N 0 0.

(** The version word of slot [i], when the slot exists. *)
Definition slot_version (q : MPMCQueue) (i : Z) : option Z :=
  cells ← m_items q; it ← cells !! Z.to_nat i; Some (version it).

(** [holds N vs q]: the queue of capacity [N] holds the values [vs], oldest
    first.  The value with sequence number [m_head q + k] sits in slot
    [(m_head q + k) mod N] under version [m_head q + k + 1]; every sequence
    number [n] from [m_tail q] up to [m_head q + N] finds its slot free,
    under version [n]. *)
Definition holds (N : Z) (vs : list T) (q : MPMCQueue) : Prop :=
  m_capacity q = N /\
  0 <= m_head q /\
  m_tail q = m_head q + Z.of_nat (length vs) /\
  Z.of_nat (length vs) <= N /\
  exists cells,
    m_items q = Some cells /\
    Z.of_nat (length cells) = N /\
    (forall k v, vs !! k = Some v ->
       cells !! Z.to_nat ((m_head q + Z.of_nat k) mod N)
       = Some (mkItem (m_head q + Z.of_nat k + 1) (Some v))) /\
    (forall n, m_tail q <= n < m_head q + N ->
       exists it, cells !! Z.to_nat (n mod N) = Some it /\ version it = n).

(** What a queue of capacity one looks like instead: its only slot always
    carries the tail counter. *)
Definition single (q : MPMCQueue) : Prop :=
  m_capacity q = 1 /\
  0 <= m_head q <= m_tail q /\
  exists x,
    m_items q = Some [mkItem (m_tail q) x] /\
    (0 < m_tail q -> is_Some x).

(** [holds] with counters that may have wrapped: [H] is the number of
    values delivered so far, of which [m_head q] keeps the low 64 bits, and
    every version is the low 64 bits of the sequence number it stands for. *)
Definition holds_mod (N H : Z) (vs : list T) (q : MPMCQueue) : Prop :=
  m_capacity q = N /\
  0 <= H /\
  m_head q = H mod two64 /\
  m_tail q = (H + Z.of_nat (length vs)) mod two64 /\
  Z.of_nat (length vs) <= N /\
  exists cells,
    m_items q = Some cells /\
    Z.of_nat (length cells) = N /\
    (forall k v, vs !! k = Some v ->
       cells !! Z.to_nat ((H + Z.of_nat k) mod N)
       = Some (mkItem ((H + Z.of_nat k + 1) mod two64) (Some v))) /\
    (forall n, H + Z.of_nat (length vs) <= n < H + N ->
       exists it, cells !! Z.to_nat (n mod N) = Some it /\
                  version it = n mod two64).

(** A state of a usable queue of capacity [N]. *)
Definition sound (N : Z) (q : MPMCQueue) : Prop :=
  (2 <= N /\ exists vs, holds N vs q) \/ (N = 1 /\ single q).

(** How one call with result [r] moves the two counters. *)
Definition counters_step (r : result) (q q' : MPMCQueue) : Prop :=
  match r with
  | Enqueued true => m_tail q' = m_tail q + 1 /\ m_head q' = m_head q
  | Dequeued true _ => m_head q' = m_head q + 1 /\ m_tail q' = m_tail q
  | _ => m_head q' = m_head q /\ m_tail q' = m_tail q
  end.

(** A computation that leaves the [m_capacity] field alone. *)
Definition keeps_capacity {A} (m : M A) : Prop :=
  forall q a q', m q = Done (a, q') -> m_capacity q' = m_capacity q.

End Queue.

Arguments mkItem {T} version value.
Arguments mkQueue {T} m_items m_capacity m_head m_tail.
Arguments version {T} i.
Arguments value {T} i.
Arguments m_items {T} m.
Arguments m_capacity {T} m.
Arguments m_head {T} m.
Arguments m_tail {T} m.
Arguments Enqueue {T} v.
Arguments Dequeue {T} out.
Arguments Enqueued {T} ok.
Arguments Dequeued {T} ok out.
Arguments ret {T A} a q.
Arguments bind {T A B} m k q.
Arguments undefined {T A} q.
Arguments load_tail {T} q.
Arguments load_head {T} q.
Arguments read_capacity {T} q.
Arguments urem {T} a b q.
Arguments item_at {T} i q.
Arguments set_item {T} i it q.
Arguments version_load {T} i q.
Arguments version_store {T} i v q.
Arguments value_store {T} i v q.
Arguments value_load {T} i q.
Arguments cas_tail {T} expected desired q.
Arguments cas_head {T} expected desired q.
Arguments try_enqueue {T} v q.
Arguments try_dequeue {T} out q.
Arguments capacity {T} q.
Arguments raw_Item {T}.
Arguments raw_block {T} sizeof_Item size.
Arguments init_versions {T} n i q.
Arguments construct {T} sizeof_Item heap capacity.
Arguments call {T} o q.
Arguments run {T} ops q.
Arguments accepted {T} ops rs.
Arguments delivered {T} rs.
Arguments reachable {T} sizeof_Item heap N q.
Arguments fifo_call {T} N o vs.
Arguments fifo_run {T} N ops vs.
Arguments initial_cells {T} N.
Arguments initial {T} N.
Arguments slot_version {T} q i.
Arguments holds {T} N vs q.
Arguments single {T} q.
Arguments holds_mod {T} N H vs q.
Arguments sound {T} N q.
Arguments keeps_capacity {T A} m.
Arguments counters_step {T} r q q'.

(** An allocator that grants every request. *)
Definition grant : Z -> bool := fun _ => true.

(** * Properties *)

(** ** Arithmetic of the ring *)

Lemma two64_pos : 0 < two64.
Proof. reflexivity. Qed.

Lemma add64_small a b : 0 <= a + b < two64 -> add64 a b = a + b.
Proof. intros H. unfold add64. by apply Z.mod_small. Qed.

Lemma add64_succ_neq a : 0 <= a < two64 -> add64 a 1 <> a.
Proof.
  intros H. unfold add64.
  destruct (decide (a + 1 < two64)) as [Hlt | Hge].
  - rewrite Z.mod_small; lia.
  - replace a with (two64 - 1) by lia.
    replace (two64 - 1 + 1) with two64 by lia.
    rewrite Z.mod_same; [ | discriminate ]. unfold two64. lia.
Qed.

(** Two sequence numbers less than [N] apart fall into different slots. *)
Lemma ring_index_inj N a b :
  0 < N -> Z.abs (a - b) < N -> a mod N = b mod N -> a = b.
Proof.
  intros HN Hd Hm.
  pose proof (Z.div_mod a N ltac:(lia)) as Ha.
  pose proof (Z.div_mod b N ltac:(lia)) as Hb.
  assert (a - b = N * (a / N - b / N)) as Hab by lia.
  assert (a / N - b / N = 0) by nia.
  lia.
Qed.

Lemma ring_index_ne N a b :
  0 < N -> Z.abs (a - b) < N -> a <> b ->
  Z.to_nat (a mod N) <> Z.to_nat (b mod N).
Proof.
  intros HN Hd Hne Heq. apply Hne, (ring_index_inj N); [done | done | ].
  pose proof (Z.mod_pos_bound a N HN). pose proof (Z.mod_pos_bound b N HN).
  lia.
Qed.

Lemma ring_index_shift N a : 0 < N -> (a + N) mod N = a mod N.
Proof.
  intros HN. rewrite <- (Z.mul_1_l N) at 1. rewrite Z.mod_add; [done | lia].
Qed.

(** Conjunctions of closed equations, one evaluation after the other: each
    one fixes the state the next one starts from. *)
Ltac evaluate :=
  repeat (split; [vm_compute; reflexivity | ]); vm_compute; reflexivity.

Section Properties.

Context {T : Type}.
Implicit Types (q : MPMCQueue T) (cells : list (Item T)) (it : Item T).
Implicit Types (v out : T) (vs : list T) (o : op T) (ops : list (op T)).
Implicit Types (rs : list (result T)) (N : Z).

(** ** The member functions, evaluated *)

Ltac run_M :=
  unfold mbind, M_bind, mret, M_ret, bind, ret, undefined;
  cbn [m_items m_capacity m_head m_tail version value fst snd].

Lemma item_at_eval cells N h t i it :
  cells !! Z.to_nat i = Some it ->
  item_at i (mkQueue (Some cells) N h t) = Done (it, mkQueue (Some cells) N h t).
Proof. intros Hit. unfold item_at. run_M. by rewrite Hit. Qed.

Lemma set_item_eval cells N h t i it :
  (Z.to_nat i < length cells)%nat ->
  set_item i it (mkQueue (Some cells) N h t)
  = Done (tt, mkQueue (Some (<[Z.to_nat i := it]> cells)) N h t).
Proof. intros Hlt. unfold set_item. run_M. by rewrite decide_True. Qed.

Lemma version_load_eval cells N h t i it :
  cells !! Z.to_nat i = Some it ->
  version_load i (mkQueue (Some cells) N h t)
  = Done (version it, mkQueue (Some cells) N h t).
Proof.
  intros Hit. unfold version_load. run_M. by rewrite (item_at_eval _ _ _ _ _ it).
Qed.

Lemma version_store_eval cells N h t i it w :
  cells !! Z.to_nat i = Some it ->
  version_store i w (mkQueue (Some cells) N h t)
  = Done (tt, mkQueue (Some (<[Z.to_nat i := mkItem w (value it)]> cells)) N h t).
Proof.
  intros Hit. unfold version_store. run_M.
  rewrite (item_at_eval _ _ _ _ _ it) by done.
  apply set_item_eval. by eapply lookup_lt_Some.
Qed.

Lemma value_store_eval cells N h t i it v :
  cells !! Z.to_nat i = Some it ->
  value_store i v (mkQueue (Some cells) N h t)
  = Done (tt, mkQueue (Some (<[Z.to_nat i := mkItem (version it) (Some v)]> cells)) N h t).
Proof.
  intros Hit. unfold value_store. run_M.
  rewrite (item_at_eval _ _ _ _ _ it) by done.
  apply set_item_eval. by eapply lookup_lt_Some.
Qed.

Lemma value_load_eval cells N h t i it :
  cells !! Z.to_nat i = Some it ->
  value_load i (mkQueue (Some cells) N h t)
  = match value it with
    | Some v => Done (v, mkQueue (Some cells) N h t)
    | None => Undefined
    end.
Proof.
  intros Hit. unfold value_load. run_M.
  rewrite (item_at_eval _ _ _ _ _ it) by done. by destruct (value it).
Qed.

(** One call to [try_enqueue], on a queue whose slot for the tail exists. *)
Lemma try_enqueue_eval cells N h t it v :
  N <> 0 ->
  cells !! Z.to_nat (t mod N) = Some it ->
  try_enqueue v (mkQueue (Some cells) N h t) =
    if version it =? t
    then Done (true, mkQueue
           (Some (<[Z.to_nat (t mod N) := mkItem (add64 t 1) (Some v)]> cells))
           N h (add64 t 1))
    else Done (false, mkQueue (Some cells) N h t).
Proof.
  intros HN Hit. apply Z.eqb_neq in HN.
  pose proof (lookup_lt_Some _ _ _ Hit) as Hlt.
  unfold try_enqueue, load_tail, read_capacity, urem, cas_tail. run_M.
  rewrite HN. run_M. rewrite (version_load_eval _ _ _ _ _ it) by done.
  destruct (version it =? t); cbn [negb]; [ | done ].
  rewrite Z.eqb_refl. cbn [negb]. run_M.
  rewrite (value_store_eval _ _ _ _ _ it) by done.
  erewrite version_store_eval by (by apply list_lookup_insert_eq).
  by rewrite list_insert_insert_eq.
Qed.

(** One call to [try_dequeue], on a queue whose slot for the head exists. *)
Lemma try_dequeue_eval cells N h t it out :
  N <> 0 ->
  cells !! Z.to_nat (h mod N) = Some it ->
  try_dequeue out (mkQueue (Some cells) N h t) =
    if version it =? add64 h 1
    then match value it with
         | Some v => Done ((true, v), mkQueue
             (Some (<[Z.to_nat (h mod N) := mkItem (add64 h N) (Some v)]> cells))
             N (add64 h 1) t)
         | None => Undefined
         end
    else Done ((false, out), mkQueue (Some cells) N h t).
Proof.
  intros HN Hit. apply Z.eqb_neq in HN.
  unfold try_dequeue, load_head, read_capacity, urem, cas_head. run_M.
  rewrite HN. run_M. rewrite (version_load_eval _ _ _ _ _ it) by done.
  destruct (version it =? add64 h 1); cbn [negb]; [ | done ].
  rewrite Z.eqb_refl. cbn [negb]. run_M.
  rewrite (value_load_eval _ _ _ _ _ it) by done.
  destruct (value it) as [v | ] eqn:Hv; [ | done ].
  rewrite (version_store_eval _ _ _ _ _ it) by done. by rewrite Hv.
Qed.

(** ** Unfolding a run *)

Lemma call_enqueue v q :
  call (Enqueue v) q =
    match try_enqueue v q with
    | Done (b, q') => Done (Enqueued b, q')
    | Undefined => Undefined
    end.
Proof. unfold call. run_M. by destruct (try_enqueue v q) as [[b q'] | ]. Qed.

Lemma call_dequeue out q :
  call (Dequeue out) q =
    match try_dequeue out q with
    | Done ((b, w), q') => Done (Dequeued b w, q')
    | Undefined => Undefined
    end.
Proof. unfold call. run_M. by destruct (try_dequeue out q) as [[[b w] q'] | ]. Qed.

Lemma run_nil q : run [] q = Done ([], q).
Proof. done. Qed.

Lemma run_cons o ops q :
  run (o :: ops) q =
    match call o q with
    | Done (r, q1) =>
        match run ops q1 with
        | Done (rs, q2) => Done (r :: rs, q2)
        | Undefined => Undefined
        end
    | Undefined => Undefined
    end.
Proof.
  simpl. run_M. destruct (call o q) as [[r q1] | ]; [ | done].
  by destruct (run ops q1) as [[rs q2] | ].
Qed.

(** ** The freshly constructed state *)

Lemma initial_cells_length N : length (initial_cells (T:=T) N) = Z.to_nat N.
Proof. unfold initial_cells. by rewrite length_fmap, length_seqZ. Qed.

Lemma initial_cells_lookup N i :
  0 <= i < N -> initial_cells (T:=T) N !! Z.to_nat i = Some (mkItem i None).
Proof.
  intros Hi. unfold initial_cells.
  rewrite list_lookup_fmap, lookup_seqZ_lt by lia.
  simpl. do 2 f_equal. lia.
Qed.

Lemma initial_holds N : 0 < N -> holds N [] (initial (T:=T) N).
Proof.
  intros HN. unfold holds, initial; simpl.
  repeat split; try lia.
  exists (initial_cells N). repeat split.
  - rewrite initial_cells_length. lia.
  - intros k v Hk. by rewrite lookup_nil in Hk.
  - intros n Hn. exists (mkItem n None). split; [ | done ].
    rewrite Z.mod_small by lia. apply initial_cells_lookup. lia.
Qed.

(** ** Construction *)

(** The initialising loop inside a block that has room for it. *)
Lemma init_versions_eval n i cells N h t :
  0 <= i -> (Z.to_nat i + n <= length cells)%nat ->
  exists cells',
    init_versions n i (mkQueue (Some cells) N h t)
    = Done (tt, mkQueue (Some cells') N h t) /\
    forall k, cells' !! k =
      (fun it => if decide (Z.to_nat i <= k < Z.to_nat i + n)%nat
                 then mkItem (Z.of_nat k) (value it) else it) <$> cells !! k.
Proof.
  revert i cells. induction n as [ | n IH]; intros i cells Hi Hlen; simpl.
  - exists cells. split; [done | ]. intros k.
    destruct (cells !! k) as [it | ]; simpl; [ | done ].
    by rewrite decide_False by lia.
  - destruct (lookup_lt_is_Some_2 cells (Z.to_nat i)) as [it0 Hit0]; [lia | ].
    run_M. rewrite (version_store_eval _ _ _ _ _ it0) by done.
    destruct (IH (i + 1) (<[Z.to_nat i := mkItem i (value it0)]> cells))
      as (cells' & -> & Hlook); [lia | rewrite length_insert; lia | ].
    exists cells'. split; [done | ]. intros k. rewrite Hlook.
    destruct (decide (k = Z.to_nat i)) as [-> | Hne].
    + rewrite list_lookup_insert_eq, Hit0 by lia. simpl.
      rewrite decide_False, decide_True by lia. do 2 f_equal. lia.
    + rewrite list_lookup_insert_ne by done.
      destruct (cells !! k) as [it | ]; simpl; [ | done ].
      destruct (decide (Z.to_nat i <= k < Z.to_nat i + S n)%nat).
      * by rewrite decide_True by lia.
      * by rewrite decide_False by lia.
Qed.

(** The loop runs off the end of a block that is too short. *)
Lemma init_versions_short n i cells N h t :
  0 <= i -> (Z.to_nat i <= length cells < Z.to_nat i + n)%nat ->
  init_versions n i (mkQueue (Some cells) N h t) = Undefined.
Proof.
  revert i cells. induction n as [ | n IH]; intros i cells Hi Hlen; simpl.
  - lia.
  - run_M. destruct (cells !! Z.to_nat i) as [it0 | ] eqn:Hit0.
    + rewrite (version_store_eval _ _ _ _ _ it0) by done.
      apply lookup_lt_Some in Hit0.
      apply IH; [lia | rewrite length_insert; lia].
    + unfold version_store, item_at. run_M. by rewrite Hit0.
Qed.

(** Its first store faults when there is no block at all. *)
Lemma init_versions_null n i N h t :
  (0 < n)%nat -> init_versions (T:=T) n i (mkQueue None N h t) = Undefined.
Proof. intros Hn. destruct n; [lia | ]. done. Qed.

(** A block never has room for more than [capacity] items. *)
Lemma raw_block_length sizeof_Item N :
  0 <= N -> (length (raw_block (T:=T) sizeof_Item (mul64 sizeof_Item N)) <= Z.to_nat N)%nat.
Proof.
  intros HN. unfold raw_block. rewrite length_replicate.
  unfold mul64.
  pose proof (Z.mod_pos_bound (sizeof_Item * N) two64 two64_pos) as Hm.
  set (size := (sizeof_Item * N) mod two64) in *.
  assert (size / sizeof_Item <= N); [ | lia ].
  destruct (Z.lt_trichotomy sizeof_Item 0) as [Hneg | [-> | Hpos]].
  - pose proof (Z.div_mod size sizeof_Item ltac:(lia)).
    pose proof (Z.mod_neg_bound size sizeof_Item Hneg). nia.
  - rewrite Z.div_0_r. lia.
  - apply Z.div_le_upper_bound; [done | ].
    assert (size <= sizeof_Item * N); [ | lia ].
    apply Z.mod_le; [nia | apply two64_pos].
Qed.

(** The constructor, evaluated: it completes when the block it was given
    has room for [N] items, and when nothing has to be initialised. *)
Lemma construct_eval sizeof_Item heap N :
  0 <= N ->
  construct (T:=T) sizeof_Item heap N =
    if heap (mul64 sizeof_Item N) then
      if decide (length (raw_block (T:=T) sizeof_Item (mul64 sizeof_Item N))
                 = Z.to_nat N)
      then Done (initial N) else Undefined
    else
      if decide (N = 0) then Done (mkQueue None 0 0 0) else Undefined.
Proof.
  intros HN. unfold construct.
  pose proof (raw_block_length sizeof_Item N HN) as Hle.
  destruct (heap _).
  - destruct (decide _) as [Hlen | Hlen].
    + destruct (init_versions_eval (Z.to_nat N) 0
                  (raw_block sizeof_Item (mul64 sizeof_Item N)) N 0 0)
        as (cells' & -> & Hlook); [done | lia | ].
      unfold initial. do 3 f_equal. apply list_eq. intros k. rewrite Hlook.
      destruct (decide (k < Z.to_nat N)%nat) as [Hk | Hk].
      * unfold raw_block in *. rewrite length_replicate in Hlen.
        rewrite lookup_replicate_2 by lia. simpl.
        rewrite decide_True by lia.
        replace k with (Z.to_nat (Z.of_nat k)) at 2 by lia.
        rewrite initial_cells_lookup by lia. done.
      * rewrite !lookup_ge_None_2; [done | | lia].
        rewrite initial_cells_length. lia.
    + rewrite init_versions_short; [done | done | lia].
  - destruct (decide (N = 0)) as [-> | Hne]; [done | ].
    rewrite init_versions_null; [done | lia].
Qed.

(** A block granted for a size that did not wrap has room for [N] items. *)
Lemma raw_block_exact sizeof_Item N :
  0 < sizeof_Item -> 0 <= N -> sizeof_Item * N < two64 ->
  length (raw_block (T:=T) sizeof_Item (mul64 sizeof_Item N)) = Z.to_nat N.
Proof.
  intros Hs HN Hfit. unfold raw_block, mul64.
  rewrite length_replicate, Z.mod_small by nia.
  by rewrite Z.mul_comm, Z.div_mul by lia.
Qed.

(** A completed construction of positive capacity ends in [initial N]. *)
Lemma construct_done sizeof_Item heap N q :
  0 < N -> construct sizeof_Item heap N = Done q -> q = initial N.
Proof.
  intros HN. rewrite construct_eval by lia.
  destruct (heap _).
  - destruct (decide _); [congruence | done].
  - rewrite decide_False by lia. done.
Qed.

Lemma initial_sound N : 1 <= N -> sound N (initial (T:=T) N).
Proof.
  intros HN. destruct (decide (N = 1)) as [-> | Hne].
  - right. split; [done | ]. unfold single, initial; simpl.
    repeat split; try lia. exists None. split; [done | lia].
  - left. split; [lia | ]. exists []. apply initial_holds. lia.
Qed.

(** ** Steps of a queue of capacity at least two *)

(** With room left, [try_enqueue] takes the value. *)
Lemma enqueue_room N vs q v :
  0 < N -> holds N vs q ->
  Z.of_nat (length vs) < N -> m_tail q + 1 < two64 ->
  exists q', try_enqueue v q = Done (true, q') /\
             holds N (vs ++ [v]) q' /\
             m_head q' = m_head q /\ m_tail q' = m_tail q + 1.
Proof.
  intros HN (Hcap & Hh & Ht & Hlen & cells & Hitems & Hcells & Hfull & Hfree) Hroom Hw.
  destruct q as [items c h t]; simpl in *. subst c items.
  destruct (Hfree t ltac:(lia)) as (it & Hit & Hver).
  rewrite (try_enqueue_eval _ _ _ _ it) by (done || lia).
  rewrite Hver, Z.eqb_refl, add64_small by lia.
  eexists. split; [done | ]. split; [ | done ].
  unfold holds; simpl. rewrite length_app; simpl.
  repeat split; try lia.
  eexists. split; [done | ]. rewrite length_insert. split; [done | ]. split.
  - intros k w Hk. apply lookup_app_Some in Hk as [Hk | [Hge Hk]].
    + rewrite list_lookup_insert_ne; [by apply Hfull | ].
      apply lookup_lt_Some in Hk. apply ring_index_ne; lia.
    + apply list_lookup_singleton_Some in Hk as [Hk ->].
      replace (h + Z.of_nat k) with t by lia.
      apply list_lookup_insert_eq. by eapply lookup_lt_Some.
  - intros n Hn. rewrite list_lookup_insert_ne; [apply Hfree; lia | ].
    apply ring_index_ne; lia.
Qed.

(** With [N] values held, [try_enqueue] refuses and changes nothing. *)
Lemma enqueue_full N vs q v :
  2 <= N -> holds N vs q -> Z.of_nat (length vs) = N ->
  try_enqueue v q = Done (false, q).
Proof.
  intros HN (Hcap & Hh & Ht & Hlen & cells & Hitems & Hcells & Hfull & Hfree) Hroom.
  destruct q as [items c h t]; simpl in *. subst c items.
  destruct vs as [ | v0 vs]; simpl in *; [lia | ].
  pose proof (Hfull 0%nat v0 eq_refl) as Hit. simpl in Hit.
  rewrite Z.add_0_r in Hit.
  rewrite (try_enqueue_eval _ _ _ _ (mkItem (h + 1) (Some v0))); [ | lia | ].
  - simpl. by rewrite (proj2 (Z.eqb_neq _ _)) by lia.
  - rewrite Ht, <- Hroom, Hroom. by rewrite ring_index_shift by lia.
Qed.

(** With a value held, [try_dequeue] hands out the oldest one. *)
Lemma dequeue_some N v vs q out :
  0 < N -> holds N (v :: vs) q -> m_head q + N < two64 ->
  exists q', try_dequeue out q = Done ((true, v), q') /\
             holds N vs q' /\
             m_head q' = m_head q + 1 /\ m_tail q' = m_tail q.
Proof.
  intros HN (Hcap & Hh & Ht & Hlen & cells & Hitems & Hcells & Hfull & Hfree) Hw.
  destruct q as [items c h t]; simpl in *. subst c items.
  pose proof (Hfull 0%nat v eq_refl) as Hit. simpl in Hit.
  rewrite Z.add_0_r in Hit.
  erewrite try_dequeue_eval; [ | lia | exact Hit ]. simpl.
  rewrite !add64_small by lia. rewrite Z.eqb_refl.
  eexists. split; [done | ]. split; [ | done ].
  unfold holds; simpl.
  repeat split; try lia.
  eexists. split; [done | ]. rewrite length_insert. split; [done | ]. split.
  - intros k w Hk.
    rewrite list_lookup_insert_ne.
    + replace (h + 1 + Z.of_nat k) with (h + Z.of_nat (S k)) by lia.
      by apply Hfull.
    + apply lookup_lt_Some in Hk. apply ring_index_ne; lia.
  - intros n Hn. destruct (decide (n = h + N)) as [-> | Hne].
    + rewrite ring_index_shift by lia. eexists. split.
      * apply list_lookup_insert_eq. by eapply lookup_lt_Some.
      * done.
    + rewrite list_lookup_insert_ne; [apply Hfree; lia | ].
      apply ring_index_ne; lia.
Qed.

(** With no value held, [try_dequeue] refuses and changes nothing. *)
Lemma dequeue_none N q out :
  0 < N -> holds N [] q -> m_head q < two64 ->
  try_dequeue out q = Done ((false, out), q).
Proof.
  intros HN (Hcap & Hh & Ht & Hlen & cells & Hitems & Hcells & Hfull & Hfree) Hw.
  destruct q as [items c h t]; simpl in *. subst c items.
  destruct (Hfree h ltac:(lia)) as (it & Hit & Hver).
  erewrite try_dequeue_eval; [ | lia | exact Hit ].
  rewrite Hver. rewrite (proj2 (Z.eqb_neq _ _)); [done | ].
  intros Heq. by apply (add64_succ_neq h); [lia | ].
Qed.

(** ** Steps of a queue of capacity one *)

Lemma single_enqueue q v :
  single q -> m_tail q + 1 < two64 ->
  exists q', try_enqueue v q = Done (true, q') /\ single q' /\
             m_head q' = m_head q /\ m_tail q' = m_tail q + 1.
Proof.
  intros (Hcap & Hht & x & Hitems & Hx) Hw.
  destruct q as [items c h t]; simpl in *. subst c items.
  erewrite try_enqueue_eval; [ | lia | by rewrite Z.mod_1_r ].
  simpl. rewrite Z.eqb_refl, Z.mod_1_r, add64_small by lia. simpl.
  eexists. split; [done | ]. split; [ | done ].
  unfold single; simpl. repeat split; try lia. eauto.
Qed.

Lemma single_dequeue q out :
  single q -> m_tail q + 1 < two64 ->
  exists b w q', try_dequeue out q = Done ((b, w), q') /\ single q' /\
    m_tail q' = m_tail q /\
    if b then m_head q' = m_head q + 1 else q' = q /\ w = out.
Proof.
  intros (Hcap & Hht & x & Hitems & Hx) Hw.
  destruct q as [items c h t]; simpl in *. subst c items.
  erewrite try_dequeue_eval; [ | lia | by rewrite Z.mod_1_r ].
  simpl. rewrite Z.mod_1_r, !add64_small by lia. simpl.
  destruct (t =? h + 1) eqn:Heq.
  - apply Z.eqb_eq in Heq. destruct Hx as [w ->]; [lia | ].
    exists true, w. eexists. split; [done | ]. split; [ | done ].
    unfold single; simpl. repeat split; try lia.
    exists (Some w). rewrite Heq. eauto.
  - exists false, out. eexists. split; [done | ]. split; [ | done ].
    unfold single; simpl. repeat split; try lia. eauto.
Qed.

(** ** Calls and runs *)

(** A queue of capacity at least two answers every call the way the
    bounded FIFO does. *)
Lemma call_refines N vs q o :
  2 <= N -> holds N vs q -> m_tail q + N < two64 ->
  exists q', call o q = Done ((fifo_call N o vs).1, q') /\
             holds N (fifo_call N o vs).2 q' /\
             counters_step (fifo_call N o vs).1 q q'.
Proof.
  intros HN Hq Hw. pose proof Hq as (_ & Hh & Ht & Hlen & _).
  destruct o as [v | out]; unfold call, fifo_call; run_M.
  - destruct (Z.ltb_spec (Z.of_nat (length vs)) N) as [Hroom | Hfull].
    + destruct (enqueue_room N vs q v) as (q' & -> & Hq' & Hh' & Ht');
        [lia | done | done | lia | ].
      simpl. eauto.
    + rewrite (enqueue_full N vs q v) by (done || lia). simpl. eauto.
  - destruct vs as [ | v vs].
    + rewrite (dequeue_none N q out) by (done || lia). simpl. eauto.
    + destruct (dequeue_some N v vs q out) as (q' & -> & Hq' & Hh' & Ht');
        [lia | done | | ].
      * simpl in Ht. lia.
      * simpl. eauto.
Qed.

Lemma run_refines N ops vs q :
  2 <= N -> holds N vs q ->
  m_tail q + Z.of_nat (length ops) + N <= two64 ->
  exists q', run ops q = Done ((fifo_run N ops vs).1, q') /\
             holds N (fifo_run N ops vs).2 q' /\
             m_tail q' <= m_tail q + Z.of_nat (length ops).
Proof.
  intros HN. revert vs q.
  induction ops as [ | o ops IH]; intros vs q Hq Hw; simpl in *.
  - exists q. run_M. split; [done | ]. split; [done | lia].
  - destruct (call_refines N vs q o) as (q1 & Hcall & Hq1 & Hstep);
      [done | done | lia | ].
    assert (m_tail q1 <= m_tail q + 1) as Ht1.
    { destruct (fifo_call N o vs).1 as [[ | ] | [ | ] ?]; simpl in Hstep; lia. }
    destruct (fifo_call N o vs) as [r vs1]; simpl in *.
    destruct (IH vs1 q1) as (q2 & Hrun & Hq2 & Ht2); [done | lia | ].
    destruct (fifo_run N ops vs1) as [rs vs2]; simpl in *.
    exists q2. run_M. rewrite Hcall, Hrun. split; [done | ]. split; [done | lia].
Qed.

(** Every call on a sound state returns, in a sound state, and moves the
    counters as its result says. *)
Lemma call_sound N q o :
  sound N q -> m_tail q + N < two64 ->
  exists r q', call o q = Done (r, q') /\ sound N q' /\ counters_step r q q'.
Proof.
  intros [[HN [vs Hq]] | [-> Hq]] Hw.
  - destruct (call_refines N vs q o) as (q' & Hcall & Hq' & Hstep); [done.. | ].
    do 2 eexists. split; [done | ]. split; [ | done ]. left. eauto.
  - destruct o as [v | out]; unfold call; run_M.
    + destruct (single_enqueue q v) as (q' & -> & Hq' & Hh & Ht); [done | lia | ].
      do 2 eexists. split; [done | ]. split; [by right | done].
    + destruct (single_dequeue q out) as (b & w & q' & -> & Hq' & Ht & Hb);
        [done | lia | ].
      do 2 eexists. split; [done | ]. split; [by right | ].
      simpl. destruct b; [done | ]. by destruct Hb as [-> _].
Qed.

Lemma run_sound N ops q :
  sound N q ->
  m_tail q + Z.of_nat (length ops) + N <= two64 ->
  exists rs q', run ops q = Done (rs, q') /\ sound N q' /\
                m_tail q' <= m_tail q + Z.of_nat (length ops).
Proof.
  revert q. induction ops as [ | o ops IH]; intros q Hq Hw; simpl in *.
  - exists [], q. run_M. split; [done | ]. split; [done | lia].
  - destruct (call_sound N q o) as (r & q1 & Hcall & Hq1 & Hstep);
      [done | lia | ].
    assert (m_tail q1 <= m_tail q + 1) as Ht1.
    { destruct r as [[ | ] | [ | ] ?]; simpl in Hstep; lia. }
    destruct (IH q1) as (rs & q2 & Hrun & Hq2 & Ht2); [done | lia | ].
    exists (r :: rs), q2. run_M. rewrite Hcall, Hrun.
    split; [done | ]. split; [done | lia].
Qed.

(** ** Reachable states *)

Lemma construct_capacity_bound sizeof_Item heap N q :
  0 < N -> construct (T:=T) sizeof_Item heap N = Done q -> N < two64.
Proof.
  intros HN. rewrite construct_eval by lia.
  destruct (heap _); [ | by rewrite decide_False by lia ].
  destruct (decide _) as [Hlen | ]; [intros _ | done].
  unfold raw_block, mul64 in Hlen. rewrite length_replicate in Hlen.
  pose proof (Z.mod_pos_bound (sizeof_Item * N) two64 two64_pos) as Hm.
  set (size := (sizeof_Item * N) mod two64) in *.
  assert (size / sizeof_Item = N) as Hq by lia.
  destruct (Z.lt_trichotomy sizeof_Item 0) as [Hneg | [-> | Hpos]].
  - pose proof (Z.div_mod size sizeof_Item ltac:(lia)).
    pose proof (Z.mod_neg_bound size sizeof_Item Hneg). nia.
  - rewrite Z.div_0_r in Hq. lia.
  - pose proof (Z.div_mod size sizeof_Item ltac:(lia)).
    pose proof (Z.mod_pos_bound size sizeof_Item Hpos). nia.
Qed.

(** Every reachable state is sound, and its next call cannot wrap. *)
Lemma reachable_sound sizeof_Item heap N q :
  1 <= N -> reachable sizeof_Item heap N q ->
  sound N q /\ m_tail q + N < two64.
Proof.
  intros HN (q0 & ops & rs & Hq0 & Hw & Hrun).
  apply construct_done in Hq0 as ->; [ | lia].
  destruct (run_sound N ops (initial N)) as (rs' & q' & Hrun' & Hq' & Ht);
    [by apply initial_sound | simpl; lia | ].
  rewrite Hrun in Hrun'. injection Hrun' as <- <-.
  simpl in Ht. split; [done | lia].
Qed.

(** With at least two slots a reachable state holds some list of values. *)
Lemma reachable_holds sizeof_Item heap N q :
  2 <= N -> reachable sizeof_Item heap N q ->
  (exists vs, holds N vs q) /\ m_tail q + N < two64.
Proof.
  intros HN Hq. apply reachable_sound in Hq as [Hs Hw]; [ | lia].
  split; [ | done]. destruct Hs as [[_ Hvs] | [-> _]]; [done | lia].
Qed.

(** ** The capacity field *)

Lemma keeps_capacity_ret {A} (a : A) : keeps_capacity (T:=T) (ret a).
Proof. intros q a' q'. unfold ret. by intros [= _ <-]. Qed.

Lemma keeps_capacity_undefined {A} : keeps_capacity (T:=T) (A:=A) undefined.
Proof. by intros q a q'. Qed.

Lemma keeps_capacity_bind {A B} (m : M T A) (k : A -> M T B) :
  keeps_capacity m -> (forall a, keeps_capacity (k a)) ->
  keeps_capacity (bind m k).
Proof.
  intros Hm Hk q b q'. unfold bind.
  destruct (m q) as [[a q1] | ] eqn:Hmq; [ | done].
  intros Hkq. rewrite (Hk _ _ _ _ Hkq). by eapply Hm.
Qed.

Lemma keeps_capacity_item_at i : keeps_capacity (T:=T) (item_at i).
Proof.
  intros q a q'. unfold item_at.
  destruct (m_items q) as [cells | ]; [ | done].
  destruct (cells !! _); [ | done]. by intros [= _ <-].
Qed.

Lemma keeps_capacity_set_item i it : keeps_capacity (set_item i it).
Proof.
  intros q a q'. unfold set_item.
  destruct (m_items q) as [cells | ]; [ | done].
  destruct (decide _); [ | done]. by intros [= _ <-].
Qed.

Lemma keeps_capacity_cas_tail e d : keeps_capacity (T:=T) (cas_tail e d).
Proof.
  intros q a q'. unfold cas_tail. destruct (_ =? _); by intros [= _ <-].
Qed.

Lemma keeps_capacity_cas_head e d : keeps_capacity (T:=T) (cas_head e d).
Proof.
  intros q a q'. unfold cas_head. destruct (_ =? _); by intros [= _ <-].
Qed.

Lemma keeps_capacity_load (f : MPMCQueue T -> Z) :
  keeps_capacity (fun q => Done (f q, q)).
Proof. intros q a q'. by intros [= _ <-]. Qed.

Ltac keeps :=
  repeat first
    [ apply keeps_capacity_ret | apply keeps_capacity_undefined
    | apply keeps_capacity_item_at | apply keeps_capacity_set_item
    | apply keeps_capacity_cas_tail | apply keeps_capacity_cas_head
    | apply keeps_capacity_load
    | apply keeps_capacity_bind; [ | intros ? ]
    | match goal with |- @keeps_capacity _ _ (if ?b then _ else _) => destruct b end
    | match goal with |- @keeps_capacity _ _ (match ?o with _ => _ end) => destruct o end ].

Lemma keeps_capacity_try_enqueue v : keeps_capacity (try_enqueue v).
Proof.
  unfold try_enqueue, version_load, version_store, value_store, urem,
    load_tail, read_capacity, mbind, M_bind, mret, M_ret.
  keeps.
Qed.

Lemma keeps_capacity_try_dequeue out : keeps_capacity (try_dequeue out).
Proof.
  unfold try_dequeue, version_load, version_store, value_load, urem,
    load_head, read_capacity, mbind, M_bind, mret, M_ret.
  keeps.
Qed.

Lemma keeps_capacity_call o : keeps_capacity (call o).
Proof.
  destruct o; unfold call, mbind, M_bind, mret, M_ret;
    (apply keeps_capacity_bind;
     [ apply keeps_capacity_try_enqueue || apply keeps_capacity_try_dequeue
     | intros ?; apply keeps_capacity_ret ]).
Qed.

Lemma keeps_capacity_run ops : keeps_capacity (run ops).
Proof.
  induction ops as [ | o ops IH]; simpl; unfold mbind, M_bind, mret, M_ret.
  - apply keeps_capacity_ret.
  - apply keeps_capacity_bind; [apply keeps_capacity_call | intros r].
    apply keeps_capacity_bind; [done | intros rs]. apply keeps_capacity_ret.
Qed.

Lemma keeps_capacity_init_versions n i : keeps_capacity (T:=T) (init_versions n i).
Proof.
  revert i. induction n as [ | n IH]; intros i; simpl.
  - apply keeps_capacity_ret.
  - unfold version_store, mbind, M_bind. keeps. apply IH.
Qed.

(** ** Filling and draining *)

Lemma enqueue_all N ws vs q :
  0 < N -> holds N vs q ->
  Z.of_nat (length vs + length ws) <= N ->
  m_tail q + Z.of_nat (length ws) < two64 ->
  exists q', run (Enqueue <$> ws) q
             = Done (replicate (length ws) (Enqueued true), q') /\
             holds N (vs ++ ws) q'.
Proof.
  intros HN. revert vs q.
  induction ws as [ | w ws IH]; intros vs q Hq Hlen Hw.
  - exists q. by rewrite app_nil_r.
  - rewrite length_cons in Hlen, Hw.
    destruct (enqueue_room N vs q w) as (q1 & Henq & Hq1 & _ & Ht1);
      [done | done | lia | lia | ].
    destruct (IH (vs ++ [w]) q1) as (q2 & Hrun & Hq2);
      [done | rewrite length_app; simpl; lia | lia | ].
    exists q2. rewrite fmap_cons, run_cons, call_enqueue, Henq, Hrun.
    split; [done | ]. by rewrite <- app_assoc in Hq2.
Qed.

Lemma dequeue_all N vs q out :
  0 < N -> holds N vs q -> m_tail q + N < two64 ->
  exists q', run (replicate (length vs) (Dequeue out)) q
             = Done (Dequeued true <$> vs, q') /\
             holds N [] q' /\ m_tail q' = m_tail q.
Proof.
  intros HN. revert q.
  induction vs as [ | v vs IH]; intros q Hq Hw.
  - by exists q.
  - pose proof Hq as (_ & Hh & Ht & _). rewrite length_cons in Ht.
    destruct (dequeue_some N v vs q out) as (q1 & Hdeq & Hq1 & _ & Ht1);
      [done | done | lia | ].
    destruct (IH q1) as (q2 & Hrun & Hq2 & Ht2); [done | lia | ].
    exists q2. rewrite length_cons, replicate_S, run_cons, call_dequeue, Hdeq, Hrun.
    split; [done | ]. split; [done | lia].
Qed.

(** The bounded FIFO neither loses nor reorders: what it held plus what it
    accepted is what it delivered plus what it holds. *)
Lemma fifo_run_conserves N ops vs :
  vs ++ accepted ops (fifo_run N ops vs).1
  = delivered (fifo_run N ops vs).1 ++ (fifo_run N ops vs).2.
Proof.
  revert vs. induction ops as [ | o ops IH]; intros vs; simpl.
  - by rewrite app_nil_r.
  - destruct o as [v | out]; simpl.
    + destruct (_ <? _); simpl.
      * specialize (IH (vs ++ [v])).
        destruct (fifo_run N ops (vs ++ [v])) as [rs vs2]; simpl in *.
        by rewrite <- IH, <- app_assoc.
      * specialize (IH vs).
        by destruct (fifo_run N ops vs) as [rs vs2].
    + destruct vs as [ | v vs]; simpl.
      * specialize (IH []).
        by destruct (fifo_run N ops []) as [rs vs2].
      * specialize (IH vs).
        destruct (fifo_run N ops vs) as [rs vs2]; simpl in *.
        by rewrite IH.
Qed.

(** ** Versions of the slots *)

(** In a state that holds [vs], the slot of a sequence number [m] of the
    current window carries [m + 1] when [m] is held and [m] when it is free. *)
Lemma holds_slot_version N vs q m :
  0 < N -> holds N vs q -> m_head q <= m < m_head q + N ->
  slot_version q (m mod N) = Some (if decide (m < m_tail q) then m + 1 else m).
Proof.
  intros HN (Hcap & Hh & Ht & Hlen & cells & Hitems & Hcells & Hfull & Hfree) Hm.
  unfold slot_version. rewrite Hitems. simpl.
  destruct (decide (m < m_tail q)) as [Hlt | Hge].
  - destruct (lookup_lt_is_Some_2 vs (Z.to_nat (m - m_head q))) as [v Hv]; [lia | ].
    apply Hfull in Hv. rewrite Z2Nat.id in Hv by lia.
    replace (m_head q + (m - m_head q)) with m in Hv by lia.
    by rewrite Hv.
  - destruct (Hfree m) as (it & -> & Hver); [lia | ]. simpl. by rewrite Hver.
Qed.

(** Every sequence number shares its slot with one number of the window. *)
Lemma window_representative N h n :
  0 < N -> exists m, h <= m < h + N /\ m mod N = n mod N.
Proof.
  intros HN. exists (h + (n - h) mod N).
  pose proof (Z.mod_pos_bound (n - h) N HN). split; [lia | ].
  rewrite Zplus_mod_idemp_r. f_equal. lia.
Qed.

(** ** Results on the sequential behaviour *)

(** C8.  The capacity is fixed at construction: after any run of calls on a
    queue constructed with capacity [N], the field [m_capacity] still has
    the value it had, and [capacity()] returns [N] and changes nothing. *)
Theorem capacity_fixed sizeof_Item heap N q0 ops rs q :
  construct sizeof_Item heap N = Done q0 ->
  run ops q0 = Done (rs, q) ->
  m_capacity q = m_capacity q0 /\ capacity q = Done (N, q).
Proof.
  intros Hq0 Hrun.
  assert (m_capacity q0 = N) as H0.
  { unfold construct in Hq0.
    destruct (init_versions _ _ _) as [[u q1] | ] eqn:Hinit; [ | done].
    injection Hq0 as ->. by apply keeps_capacity_init_versions in Hinit. }
  apply keeps_capacity_run in Hrun.
  split; [done | ]. unfold capacity, read_capacity. congruence.
Qed.

(** C5.  In every state with [m_head = m_tail] that a queue of capacity
    [N >= 1] reaches in fewer than [2^64 - N] calls, a call to [try_dequeue]
    returns [false], leaves [out] as it was and leaves the whole queue state
    as it was. *)
Theorem dequeue_empty sizeof_Item heap N q out :
  1 <= N -> reachable sizeof_Item heap N q ->
  m_head q = m_tail q ->
  try_dequeue out q = Done ((false, out), q).
Proof.
  intros HN Hq Hempty.
  apply reachable_sound in Hq as [[[HN2 [vs Hq]] | [-> Hq]] Hw]; [ | | done].
  - pose proof Hq as (_ & Hh & Ht & _).
    destruct vs as [ | v vs]; [ | simpl in Ht; lia].
    apply (dequeue_none N); [lia | done | lia].
  - destruct (single_dequeue q out Hq) as (b & w & q' & Hdq & _ & _ & Hb); [lia | ].
    destruct b.
    + exfalso. destruct Hq as (Hcap & Hht & x & Hitems & Hx).
      destruct q as [items c h t]; simpl in *. subst c items h.
      erewrite try_dequeue_eval in Hdq; [ | lia | by rewrite Z.mod_1_r ].
      simpl in Hdq. rewrite (proj2 (Z.eqb_neq _ _)) in Hdq; [done | ].
      intros Heq. apply (add64_succ_neq t); [lia | done].
    + by destruct Hb as [-> ->].
Qed.

(** C6.  In every state that a queue of capacity [N >= 1] reaches in fewer
    than [2^64 - N] calls, which is before a counter can wrap, a call
    returns and moves the counters as its result says: a refused call leaves
    [m_head] and [m_tail] as they were, an accepted enqueue adds one to
    [m_tail] only, a successful dequeue adds one to [m_head] only; neither
    counter ever decreases. *)
Theorem counters_monotone sizeof_Item heap N q o :
  1 <= N -> reachable sizeof_Item heap N q ->
  exists r q', call o q = Done (r, q') /\
               counters_step r q q' /\
               m_head q <= m_head q' /\ m_tail q <= m_tail q'.
Proof.
  intros HN Hq. apply reachable_sound in Hq as [Hs Hw]; [ | done].
  destruct (call_sound N q o Hs Hw) as (r & q' & Hcall & _ & Hstep).
  exists r, q'. split; [done | ]. split; [done | ].
  destruct r as [[ | ] | [ | ] ?]; simpl in Hstep; lia.
Qed.

(** The occupancy of a queue with at least two slots stays between zero
    and its capacity. *)
Theorem occupancy_bounded sizeof_Item heap N q :
  2 <= N -> reachable sizeof_Item heap N q ->
  m_head q <= m_tail q <= m_head q + N.
Proof.
  intros HN Hq. apply reachable_holds in Hq as [[vs Hq] _]; [ | done].
  destruct Hq as (_ & _ & Ht & Hlen & _). lia.
Qed.

(** A queue with at least two slots takes exactly [N] values and then
    refuses, leaving its state as it was. *)
Theorem fill_then_refuse sizeof_Item heap N q0 vs v :
  2 <= N -> construct sizeof_Item heap N = Done q0 ->
  Z.of_nat (length vs) = N ->
  exists q, run (Enqueue <$> vs) q0
            = Done (replicate (length vs) (Enqueued true), q) /\
            try_enqueue v q = Done (false, q).
Proof.
  intros HN Hq0 Hlen.
  assert (N < two64) as Hbound by (eapply construct_capacity_bound; [ | done]; lia).
  apply construct_done in Hq0 as ->; [ | lia].
  destruct (enqueue_all N vs [] (initial N)) as (q & Hrun & Hq);
    [lia | apply initial_holds; lia | simpl; lia | simpl; lia | ].
  exists q. split; [done | ]. by apply (enqueue_full N vs).
Qed.

(** A queue with at least two slots is a FIFO: after any run, the values
    accepted so far are the values delivered so far followed by the values
    [rest] that further dequeues deliver, in that order, before the queue
    reports that it is empty. *)
Theorem fifo_order sizeof_Item heap N q0 ops out :
  2 <= N -> construct sizeof_Item heap N = Done q0 ->
  Z.of_nat (length ops) + N < two64 ->
  exists rs q rest q',
    run ops q0 = Done (rs, q) /\
    accepted ops rs = delivered rs ++ rest /\
    run (replicate (length rest) (Dequeue out)) q
      = Done (Dequeued true <$> rest, q') /\
    try_dequeue out q' = Done ((false, out), q').
Proof.
  intros HN Hq0 Hw. apply construct_done in Hq0 as ->; [ | lia].
  destruct (run_refines N ops [] (initial N)) as (q & Hrun & Hq & Ht);
    [done | apply initial_holds; lia | simpl; lia | ].
  pose proof (fifo_run_conserves N ops []) as Hcons.
  destruct (fifo_run N ops []) as [rs rest]; simpl in *.
  destruct (dequeue_all N rest q out) as (q' & Hdrain & Hq' & Ht');
    [lia | done | lia | ].
  exists rs, q, rest, q'. repeat split; try done.
  apply (dequeue_none N); [lia | done | ].
  destruct Hq' as (_ & Hh' & Hl' & _). simpl in Hl'. lia.
Qed.

(** The versions of the slots of a queue with at least two slots.  In a
    reachable state and for every sequence number [n], the slot [n mod N]
    carries [n] exactly when [n] is a free position, from [m_tail] up to
    [m_head + N], and carries [n + 1] exactly when [n] is a held position,
    from [m_head] up to [m_tail].  [try_enqueue] succeeds exactly when the
    slot of [m_tail] carries [m_tail]; [try_dequeue] succeeds exactly when
    the slot of [m_head] carries [m_head + 1], and then leaves
    [m_head + N] in that slot. *)
Theorem slot_lifecycle sizeof_Item heap N q :
  2 <= N -> reachable sizeof_Item heap N q ->
  (forall n, slot_version q (n mod N) = Some n
             <-> m_tail q <= n < m_head q + N) /\
  (forall n, slot_version q (n mod N) = Some (n + 1)
             <-> m_head q <= n < m_tail q) /\
  (forall v, (exists q', try_enqueue v q = Done (true, q'))
             <-> slot_version q (m_tail q mod N) = Some (m_tail q)) /\
  (forall out, (exists w q', try_dequeue out q = Done ((true, w), q'))
               <-> slot_version q (m_head q mod N) = Some (m_head q + 1)) /\
  (forall out w q', try_dequeue out q = Done ((true, w), q') ->
     slot_version q' (m_head q mod N) = Some (m_head q + N)).
Proof.
  intros HN Hq. apply reachable_holds in Hq as [[vs Hq] Hw]; [ | done].
  pose proof Hq as (Hcap & Hh & Ht & Hlen & _).
  assert (forall n, exists m, m_head q <= m < m_head q + N /\
            m mod N = n mod N /\
            slot_version q (n mod N)
            = Some (if decide (m < m_tail q) then m + 1 else m)) as Hslot.
  { intros n. destruct (window_representative N (m_head q) n) as (m & Hm & Hmn); [lia | ].
    exists m. split; [done | ]. split; [done | ].
    rewrite <- Hmn. apply (holds_slot_version N vs); [lia | done | done]. }
  assert (forall n m, m mod N = n mod N -> Z.abs (m - n) < N -> m = n) as Hinj.
  { intros n m Hmn Hd. apply (ring_index_inj N); [lia | done | done]. }
  split; [ | split; [ | split; [ | split]]].
  - intros n. destruct (Hslot n) as (m & Hm & Hmn & ->).
    destruct (decide (m < m_tail q)); split.
    + intros [= <-]. exfalso. assert (m = m + 1); [apply Hinj; [done | lia] | lia].
    + intros Hn. assert (m = n); [apply Hinj; [done | lia] | lia].
    + intros [= <-]. lia.
    + intros Hn. assert (m = n); [apply Hinj; [done | lia] | congruence].
  - intros n. destruct (Hslot n) as (m & Hm & Hmn & ->).
    destruct (decide (m < m_tail q)); split.
    + intros [= Heq]. lia.
    + intros Hn. assert (m = n); [apply Hinj; [done | lia] | congruence].
    + intros [= ->]. exfalso.
      assert (n + 1 = n); [apply Hinj; [done | lia] | lia].
    + intros Hn. assert (m = n); [apply Hinj; [done | lia] | lia].
  - intros v. destruct (Z.ltb_spec (Z.of_nat (length vs)) N) as [Hroom | Hfull].
    + destruct (enqueue_room N vs q v) as (q' & Henq & _); [lia | done | done | lia | ].
      rewrite (holds_slot_version N vs) by (done || lia).
      rewrite decide_False by lia. split; [done | eauto].
    + rewrite (enqueue_full N vs q v) by (done || lia).
      replace (m_tail q) with (m_head q + N) at 1 by lia.
      rewrite ring_index_shift by lia.
      rewrite (holds_slot_version N vs) by (done || lia).
      rewrite decide_True by lia. split; [by intros [q' [=]] | intros [=]; lia].
  - intros out. rewrite (holds_slot_version N vs) by (done || lia).
    destruct vs as [ | w vs].
    + rewrite (dequeue_none N q out) by (done || lia). simpl in Ht.
      rewrite decide_False by lia. split; [by intros (? & ? & [=]) | intros [=]; lia].
    + destruct (dequeue_some N w vs q out) as (q' & Hdeq & _); [lia | done | lia | ].
      simpl in Ht. rewrite decide_True by lia. split; [done | eauto].
  - intros out w q' Hdeq. destruct vs as [ | w' vs].
    + rewrite (dequeue_none N q out) in Hdeq by (done || lia). done.
    + destruct (dequeue_some N w' vs q out) as (q1 & Hdeq1 & Hq1 & Hh1 & Ht1);
        [lia | done | lia | ].
      rewrite Hdeq in Hdeq1. injection Hdeq1 as -> ->.
      rewrite <- (ring_index_shift N) by lia.
      rewrite (holds_slot_version N vs) by (done || lia).
      simpl in Ht, Hlen. rewrite decide_False by lia. done.
Qed.

(** ** Construction, stated *)

(** C7.  Construction with a positive capacity [N] whose storage size
    [sizeof(Item) * N] fits in [size_t]: when the allocator returns storage,
    construction completes with [m_capacity = N], [m_head = m_tail = 0] and
    version [i] in every slot [i] below [N]; when the allocator returns the
    null pointer, construction does not complete, its first store going
    through that pointer. *)
Theorem construct_spec sizeof_Item heap N :
  0 < sizeof_Item -> 0 < N -> sizeof_Item * N < two64 ->
  (heap (sizeof_Item * N) = true ->
     exists q, construct (T:=T) sizeof_Item heap N = Done q /\
               m_capacity q = N /\ m_head q = 0 /\ m_tail q = 0 /\
               forall i, 0 <= i < N -> slot_version q i = Some i) /\
  (heap (sizeof_Item * N) = false ->
     construct (T:=T) sizeof_Item heap N = Undefined).
Proof.
  intros Hs HN Hfit. rewrite construct_eval by lia.
  assert (mul64 sizeof_Item N = sizeof_Item * N) as Hsize
    by (unfold mul64; apply Z.mod_small; nia).
  split; intros Hheap; rewrite <- Hsize in Hheap; rewrite Hheap.
  - rewrite decide_True by (apply raw_block_exact; lia).
    exists (initial N). repeat split.
    intros i Hi. unfold slot_version, initial; simpl.
    by rewrite initial_cells_lookup.
  - by rewrite decide_False by lia.
Qed.

(** ** The scenario with four slots *)


(** C4.  On a queue of capacity 4: enqueuing [A], [B], [C], [D] succeeds
    four times; enqueuing [E] is refused and leaves the queue, which holds
    [A], [B], [C], [D], as it was; a dequeue delivers [A]; enqueuing [E]
    now succeeds; three dequeues deliver [B], [C], [D]; one more delivers
    [E]; the next one finds the queue empty and is refused. *)
Theorem scenario_capacity_four sizeof_Item heap q0 (A B C D E out : T) :
  construct sizeof_Item heap 4 = Done q0 ->
  exists q4 q5 q6 q7 q8,
    run [Enqueue A; Enqueue B; Enqueue C; Enqueue D] q0
      = Done ([Enqueued true; Enqueued true; Enqueued true; Enqueued true], q4) /\
    try_enqueue E q4 = Done (false, q4) /\
    holds 4 [A; B; C; D] q4 /\
    try_dequeue out q4 = Done ((true, A), q5) /\
    try_enqueue E q5 = Done (true, q6) /\
    run [Dequeue out; Dequeue out; Dequeue out] q6
      = Done ([Dequeued true B; Dequeued true C; Dequeued true D], q7) /\
    try_dequeue out q7 = Done ((true, E), q8) /\
    try_dequeue out q8 = Done ((false, out), q8).
Proof.
  intros Hq0. apply construct_done in Hq0 as ->; [ | lia].
  destruct (enqueue_all 4 [A; B; C; D] [] (initial 4)) as (q4 & Hrun & Hq4);
    [lia | by apply initial_holds | simpl; lia | vm_compute; reflexivity | ].
  assert (run [Enqueue A; Enqueue B; Enqueue C; Enqueue D] (initial 4)
          = Done ([Enqueued true; Enqueued true; Enqueued true; Enqueued true],
                  mkQueue (Some [mkItem 1 (Some A); mkItem 2 (Some B);
                                 mkItem 3 (Some C); mkItem 4 (Some D)]) 4 0 4))
    as Hrun' by (vm_compute; reflexivity).
  cbn [fmap list_fmap] in Hrun. rewrite Hrun' in Hrun. injection Hrun as <-.
  do 5 eexists. split; [exact Hrun' | ].
  split; [vm_compute; reflexivity | ].
  split; [exact Hq4 | ].
  evaluate.
Qed.

(** ** A queue with a single slot *)

(** C2.  A queue of capacity 1 accepts a second value while it still holds
    the first: on the freshly constructed queue both calls to [try_enqueue]
    return [true], and the second one changes the state. *)
Theorem capacity_one_overfill (a b : T) :
  exists q0 q1 q2,
    construct 64 grant 1 = Done q0 /\
    try_enqueue a q0 = Done (true, q1) /\
    try_enqueue b q1 = Done (true, q2) /\
    q2 <> q1.
Proof.
  do 3 eexists. split; [vm_compute; reflexivity | ].
  split; [vm_compute; reflexivity | ].
  split; [vm_compute; reflexivity | ].
  intros [=].
Qed.

(** C1.  In a queue of capacity 1 a version does not tell a held slot from
    a free one.  After one enqueue the single slot carries version 1: it
    holds the value of sequence number 0, which a dequeue would deliver, and
    at the same time [try_enqueue] claims it for sequence number 1, after
    which the value of sequence number 0 is gone and no dequeue succeeds. *)
Theorem capacity_one_versions (a b out : T) :
  exists q0 q1 q1' q2,
    construct 64 grant 1 = Done q0 /\
    try_enqueue a q0 = Done (true, q1) /\
    m_head q1 = 0 /\ m_tail q1 = 1 /\
    slot_version q1 (0 mod 1) = Some (0 + 1) /\
    slot_version q1 (1 mod 1) = Some 1 /\
    try_dequeue out q1 = Done ((true, a), q1') /\
    try_enqueue b q1 = Done (true, q2) /\
    try_dequeue out q2 = Done ((false, out), q2).
Proof.
  do 4 eexists. evaluate.
Qed.

(** C3.  A queue of capacity 1 loses values: two values in a row are both
    accepted, and no dequeue after that delivers either of them. *)
Theorem capacity_one_loses (a b out : T) :
  exists q0 q,
    construct 64 grant 1 = Done q0 /\
    run [Enqueue a; Enqueue b; Dequeue out; Dequeue out] q0
    = Done ([Enqueued true; Enqueued true;
             Dequeued false out; Dequeued false out], q).
Proof.
  do 2 eexists. evaluate.
Qed.

(** C10.  A queue of capacity 1 reaches a state with [m_tail - m_head = 2]:
    the occupancy exceeds the capacity. *)
Theorem capacity_one_occupancy (a b : T) :
  exists q, reachable 64 grant 1 q /\ m_tail q - m_head q = 2.
Proof.
  eexists. split.
  - exists (initial 1), [Enqueue a; Enqueue b], [Enqueued true; Enqueued true].
    evaluate.
  - reflexivity.
Qed.

(** C9.  One producer and one consumer on a queue of capacity 1, the
    producer running first: both of its values are accepted, and however
    often the consumer then calls [try_dequeue], every call is refused.
    Nothing of what was enqueued is ever dequeued. *)
Theorem capacity_one_never_delivers (a b out : T) (n : nat) :
  exists q0 q,
    construct 64 grant 1 = Done q0 /\
    run ([Enqueue a; Enqueue b] ++ replicate n (Dequeue out)) q0
    = Done ([Enqueued true; Enqueued true] ++ replicate n (Dequeued false out), q).
Proof.
  exists (initial 1), (mkQueue (Some [mkItem 2 (Some b)]) 1 0 2).
  split; [vm_compute; reflexivity | ].
  assert (run (replicate n (Dequeue out)) (mkQueue (Some [mkItem 2 (Some b)]) 1 0 2)
          = Done (replicate n (Dequeued false out),
                  mkQueue (Some [mkItem 2 (Some b)]) 1 0 2)) as Hdrain.
  { induction n as [ | n IH]; [done | ].
    assert (call (Dequeue out) (mkQueue (Some [mkItem 2 (Some b)]) 1 0 2)
            = Done (Dequeued false out, mkQueue (Some [mkItem 2 (Some b)]) 1 0 2))
      as Hcall by (vm_compute; reflexivity).
    by rewrite replicate_S, run_cons, Hcall, IH. }
  assert (call (Enqueue a) (initial 1)
          = Done (Enqueued true, mkQueue (Some [mkItem 1 (Some a)]) 1 0 1))
    as Ha by (vm_compute; reflexivity).
  assert (call (Enqueue b) (mkQueue (Some [mkItem 1 (Some a)]) 1 0 1)
          = Done (Enqueued true, mkQueue (Some [mkItem 2 (Some b)]) 1 0 2))
    as Hb by (vm_compute; reflexivity).
  simpl app. by rewrite run_cons, Ha, run_cons, Hb, Hdrain.
Qed.

(** ** The counters at the 64-bit boundary *)

(** An accepted enqueue at [m_tail = 2^64 - 1] takes the counter back to 0,
    below [m_head]: beyond that many calls the counters are no longer
    sequence numbers. *)
Lemma tail_wraps (x y v : T) :
  try_enqueue v (mkQueue (Some [mkItem 0 (Some x); mkItem (two64 - 1) (Some y)])
                         2 (two64 - 1) (two64 - 1))
  = Done (true, mkQueue (Some [mkItem 0 (Some x); mkItem 0 (Some v)])
                        2 (two64 - 1) 0).
Proof. vm_compute. reflexivity. Qed.

(** ** The calls on an arbitrary object *)

(** [try_enqueue] on any object whatsoever: it is undefined without
    storage, with capacity zero, and with a tail slot outside the block;
    otherwise the version of the tail slot decides. *)
Lemma try_enqueue_any v q :
  try_enqueue v q =
    match m_items q with
    | None => Undefined
    | Some cells =>
        if m_capacity q =? 0 then Undefined
        else match cells !! Z.to_nat (m_tail q mod m_capacity q) with
             | None => Undefined
             | Some it =>
                 if version it =? m_tail q
                 then Done (true, mkQueue
                        (Some (<[Z.to_nat (m_tail q mod m_capacity q)
                                 := mkItem (add64 (m_tail q) 1) (Some v)]> cells))
                        (m_capacity q) (m_head q) (add64 (m_tail q) 1))
                 else Done (false, q)
             end
    end.
Proof.
  destruct q as [[cells | ] c h t]; cbn [m_items m_capacity m_head m_tail].
  - destruct (c =? 0) eqn:Hc.
    + unfold try_enqueue, load_tail, read_capacity, urem. run_M. by rewrite Hc.
    + apply Z.eqb_neq in Hc.
      destruct (cells !! Z.to_nat (t mod c)) as [it | ] eqn:Hit.
      * by apply try_enqueue_eval.
      * unfold try_enqueue, load_tail, read_capacity, urem, version_load, item_at.
        run_M. rewrite (proj2 (Z.eqb_neq _ _) Hc). run_M. by rewrite Hit.
  - unfold try_enqueue, load_tail, read_capacity, urem, version_load, item_at.
    run_M. by destruct (c =? 0).
Qed.

Lemma try_dequeue_any out q :
  try_dequeue out q =
    match m_items q with
    | None => Undefined
    | Some cells =>
        if m_capacity q =? 0 then Undefined
        else match cells !! Z.to_nat (m_head q mod m_capacity q) with
             | None => Undefined
             | Some it =>
                 if version it =? add64 (m_head q) 1
                 then match value it with
                      | Some w => Done ((true, w), mkQueue
                          (Some (<[Z.to_nat (m_head q mod m_capacity q)
                                   := mkItem (add64 (m_head q) (m_capacity q)) (Some w)]>
                                   cells))
                          (m_capacity q) (add64 (m_head q) 1) (m_tail q))
                      | None => Undefined
                      end
                 else Done ((false, out), q)
             end
    end.
Proof.
  destruct q as [[cells | ] c h t]; cbn [m_items m_capacity m_head m_tail].
  - destruct (c =? 0) eqn:Hc.
    + unfold try_dequeue, load_head, read_capacity, urem. run_M. by rewrite Hc.
    + apply Z.eqb_neq in Hc.
      destruct (cells !! Z.to_nat (h mod c)) as [it | ] eqn:Hit.
      * by apply try_dequeue_eval.
      * unfold try_dequeue, load_head, read_capacity, urem, version_load, item_at.
        run_M. rewrite (proj2 (Z.eqb_neq _ _) Hc). run_M. by rewrite Hit.
  - unfold try_dequeue, load_head, read_capacity, urem, version_load, item_at.
    run_M. by destruct (c =? 0).
Qed.

Lemma run_app ops1 ops2 q :
  run (ops1 ++ ops2) q =
    match run ops1 q with
    | Done (rs1, q1) =>
        match run ops2 q1 with
        | Done (rs2, q2) => Done (rs1 ++ rs2, q2)
        | Undefined => Undefined
        end
    | Undefined => Undefined
    end.
Proof.
  revert q. induction ops1 as [ | o ops1 IH]; intros q.
  - rewrite app_nil_l, run_nil. by destruct (run ops2 q) as [[rs2 q2] | ].
  - rewrite <- app_comm_cons, !run_cons.
    destruct (call o q) as [[r q1] | ]; [ | done]. rewrite IH.
    destruct (run ops1 q1) as [[rs1 q2] | ]; [ | done].
    by destruct (run ops2 q2) as [[rs2 q3] | ].
Qed.

Lemma run_length ops q rs q' :
  run ops q = Done (rs, q') -> length rs = length ops.
Proof.
  revert q rs. induction ops as [ | o ops IH]; intros q rs.
  - rewrite run_nil. by intros [= <- _].
  - rewrite run_cons. destruct (call o q) as [[r q1] | ]; [ | done].
    destruct (run ops q1) as [[rs1 q2] | ] eqn:Hrun; [ | done].
    intros [= <- <-]. simpl. f_equal. by eapply IH.
Qed.

(** ** Further results *)

(** A queue with at least two slots answers every call of every run the
    way the bounded FIFO of capacity [N] does, and ends holding what that
    FIFO holds. *)
Theorem queue_refines_fifo sizeof_Item heap N q0 ops :
  2 <= N -> construct sizeof_Item heap N = Done q0 ->
  Z.of_nat (length ops) + N <= two64 ->
  exists q, run ops q0 = Done ((fifo_run N ops []).1, q) /\
            holds N (fifo_run N ops []).2 q.
Proof.
  intros HN Hq0 Hw. apply construct_done in Hq0 as ->; [ | lia].
  destruct (run_refines N ops [] (initial N)) as (q & Hrun & Hq & _);
    [done | apply initial_holds; lia | simpl; lia | ].
  eauto.
Qed.

(** No run on a constructed queue of capacity [N >= 1] goes wrong before
    the counters can wrap: no call indexes outside the storage, divides by
    zero or reads a payload that was never written; each call returns, and
    the storage is still a block of [N] slots afterwards. *)
Theorem run_defined sizeof_Item heap N q0 ops :
  1 <= N -> construct sizeof_Item heap N = Done q0 ->
  Z.of_nat (length ops) + N <= two64 ->
  exists rs q cells,
    run ops q0 = Done (rs, q) /\ length rs = length ops /\
    m_items q = Some cells /\ Z.of_nat (length cells) = N.
Proof.
  intros HN Hq0 Hw. apply construct_done in Hq0 as ->; [ | lia].
  destruct (run_sound N ops (initial N)) as (rs & q & Hrun & Hq & _);
    [by apply initial_sound | simpl; lia | ].
  assert (exists cells, m_items q = Some cells /\ Z.of_nat (length cells) = N)
    as (cells & Hitems & Hlen).
  { destruct Hq as [[_ [vs Hq]] | [-> Hq]].
    - destruct Hq as (_ & _ & _ & _ & cells & ? & ? & _). eauto.
    - destruct Hq as (_ & _ & x & -> & _). eauto. }
  exists rs, q, cells. repeat split; try done. by eapply run_length.
Qed.

(** A refused call changes nothing, whatever the state of the object: when
    [try_enqueue] returns [false] the object is as before, and when
    [try_dequeue] returns [false] the object and [out] are as before. *)
Theorem refused_call_changes_nothing o q r q' :
  call o q = Done (r, q') ->
  (r = Enqueued false -> q' = q) /\
  (forall w, r = Dequeued false w -> q' = q /\ o = Dequeue w).
Proof.
  destruct o as [v | out].
  - rewrite call_enqueue, try_enqueue_any.
    destruct (m_items q) as [cells | ]; [ | done].
    destruct (_ =? 0); [done | ]. destruct (cells !! _) as [it | ]; [ | done].
    destruct (_ =? _); intros [= <- <-]; split; (done || by intros ? [=]).
  - rewrite call_dequeue, try_dequeue_any.
    destruct (m_items q) as [cells | ]; [ | done].
    destruct (_ =? 0); [done | ]. destruct (cells !! _) as [it | ]; [ | done].
    destruct (_ =? _).
    + destruct (value it); [ | done]. intros [= <- <-]. split; [done | by intros ? [=]].
    + intros [= <- <-]. split; [done | ]. by intros w [= <-].
Qed.

(** No call resizes or replaces the ring storage: after any run, from any
    state, the storage pointer is null exactly if it was, and the block has
    as many slots as it had. *)
Theorem storage_fixed ops q rs q' :
  run ops q = Done (rs, q') ->
  length <$> m_items q' = length <$> m_items q.
Proof.
  revert q rs. induction ops as [ | o ops IH]; intros q rs.
  - rewrite run_nil. by intros [= _ <-].
  - rewrite run_cons. destruct (call o q) as [[r q1] | ] eqn:Hcall; [ | done].
    destruct (run ops q1) as [[rs1 q2] | ] eqn:Hrun; [ | done].
    intros [= _ <-]. rewrite (IH _ _ Hrun). clear IH Hrun.
    destruct o as [v | out].
    + rewrite call_enqueue, try_enqueue_any in Hcall.
      destruct (m_items q) as [cells | ] eqn:Hitems; [ | done].
      destruct (_ =? 0); [done | ]. destruct (cells !! _) as [it | ]; [ | done].
      destruct (_ =? _); injection Hcall as _ <-; simpl.
      * by rewrite length_insert.
      * by rewrite Hitems.
    + rewrite call_dequeue, try_dequeue_any in Hcall.
      destruct (m_items q) as [cells | ] eqn:Hitems; [ | done].
      destruct (_ =? 0); [done | ]. destruct (cells !! _) as [it | ]; [ | done].
      destruct (_ =? _).
      * destruct (value it); [ | done]. injection Hcall as _ <-; simpl.
        by rewrite length_insert.
      * injection Hcall as _ <-. by rewrite Hitems.
Qed.

(** With capacity 0 the constructor completes whatever the allocator
    answers, and every call on the object it leaves is undefined: the slot
    index is a remainder by zero. *)
Theorem capacity_zero_undefined sizeof_Item heap :
  exists q0, construct (T:=T) sizeof_Item heap 0 = Done q0 /\
             forall o, call o q0 = Undefined.
Proof.
  rewrite construct_eval by lia.
  destruct (heap _).
  - rewrite decide_True.
    + eexists. split; [done | ]. intros [v | out].
      * rewrite call_enqueue, try_enqueue_any. done.
      * rewrite call_dequeue, try_dequeue_any. done.
    + unfold raw_block, mul64. by rewrite length_replicate, Z.mul_0_r.
  - rewrite decide_True by done. eexists. split; [done | ].
    intros [v | out].
    + rewrite call_enqueue, try_enqueue_any. done.
    + rewrite call_dequeue, try_dequeue_any. done.
Qed.

(** Whenever the storage size [sizeof(Item) * N] does not fit in 64 bits,
    construction is undefined, whatever the allocator answers: either it
    returns null, or it grants the wrapped size and the initialising loop
    leaves the block. *)
Theorem construction_size_wraps sizeof_Item heap N :
  0 < sizeof_Item -> 0 < N -> two64 <= sizeof_Item * N ->
  construct (T:=T) sizeof_Item heap N = Undefined.
Proof.
  intros Hs HN Hover. rewrite construct_eval by lia.
  destruct (heap _); [ | by rewrite decide_False by lia].
  rewrite decide_False; [done | ].
  unfold raw_block, mul64. rewrite length_replicate.
  pose proof (Z.mod_pos_bound (sizeof_Item * N) two64 two64_pos) as Hm.
  assert ((sizeof_Item * N) mod two64 <= sizeof_Item * N - two64) as Hle.
  { rewrite <- (Z.mod_add _ (-1) two64) by (pose proof two64_pos; lia).
    apply Z.mod_le; pose proof two64_pos; lia. }
  assert ((sizeof_Item * N) mod two64 / sizeof_Item < N); [ | lia].
  apply Z.div_lt_upper_bound; [done | ]. pose proof two64_pos. lia.
Qed.

(** From a sound state, a run adds to [m_tail] the number of enqueues it
    accepts and to [m_head] the number of values it delivers. *)
Lemma run_counts N ops q :
  sound N q -> m_tail q + Z.of_nat (length ops) + N <= two64 ->
  exists rs q', run ops q = Done (rs, q') /\
    m_tail q' = m_tail q + Z.of_nat (length (accepted ops rs)) /\
    m_head q' = m_head q + Z.of_nat (length (delivered rs)).
Proof.
  revert q. induction ops as [ | o ops IH]; intros q Hq Hw.
  - exists [], q. rewrite run_nil. simpl. split; [done | lia].
  - rewrite length_cons in Hw.
    destruct (call_sound N q o) as (r & q1 & Hcall & Hq1 & Hstep); [done | lia | ].
    assert (m_tail q1 <= m_tail q + 1) as Ht1.
    { destruct r as [[ | ] | [ | ] ?]; simpl in Hstep; lia. }
    destruct (IH q1) as (rs & q2 & Hrun & Ht & Hh); [done | lia | ].
    exists (r :: rs), q2. rewrite run_cons, Hcall, Hrun. split; [done | ].
    destruct o as [v | out].
    + rewrite call_enqueue in Hcall.
      destruct (try_enqueue v q) as [[b q1'] | ]; [ | done].
      injection Hcall as <- ->. destruct b; simpl in *; lia.
    + rewrite call_dequeue in Hcall.
      destruct (try_dequeue out q) as [[[b w] q1'] | ]; [ | done].
      injection Hcall as <- ->. destruct b; simpl in *; lia.
Qed.

(** The two counters count: after a run on a constructed queue, [m_tail]
    is the number of accepted enqueues and [m_head] the number of delivered
    values. *)
Theorem counters_count sizeof_Item heap N q0 ops :
  1 <= N -> construct sizeof_Item heap N = Done q0 ->
  Z.of_nat (length ops) + N <= two64 ->
  exists rs q, run ops q0 = Done (rs, q) /\
    m_tail q = Z.of_nat (length (accepted ops rs)) /\
    m_head q = Z.of_nat (length (delivered rs)).
Proof.
  intros HN Hq0 Hw. apply construct_done in Hq0 as ->; [ | lia].
  destruct (run_counts N ops (initial N)) as (rs & q & Hrun & Ht & Hh);
    [by apply initial_sound | simpl; lia | ].
  exists rs, q. simpl in Ht, Hh. split; [done | lia].
Qed.

(** Round trip: up to [N] values enqueued into a fresh queue of capacity
    [N] are all accepted, the same number of dequeues hands them back in
    the order they went in, and the queue is empty again. *)
Theorem fill_drain_round_trip sizeof_Item heap N q0 vs out :
  1 <= N -> construct sizeof_Item heap N = Done q0 ->
  Z.of_nat (length vs) <= N -> Z.of_nat (length vs) + N < two64 ->
  exists q,
    run ((Enqueue <$> vs) ++ replicate (length vs) (Dequeue out)) q0
    = Done (replicate (length vs) (Enqueued true) ++ (Dequeued true <$> vs), q) /\
    m_head q = m_tail q.
Proof.
  intros HN Hq0 Hlen Hw. apply construct_done in Hq0 as ->; [ | lia].
  destruct (decide (N = 1)) as [-> | Hne].
  - destruct vs as [ | v [ | v' vs]]; [ | | simpl in Hlen; lia].
    + eexists. split; vm_compute; reflexivity.
    + eexists. split; vm_compute; reflexivity.
  - destruct (enqueue_all N vs [] (initial N)) as (q1 & Hfill & Hq1);
      [lia | apply initial_holds; lia | simpl; lia | simpl; lia | ].
    simpl in Hq1. pose proof Hq1 as (_ & _ & Ht1 & _).
    destruct (dequeue_all N vs q1 out) as (q2 & Hdrain & Hq2 & _);
      [lia | done | | ].
    { destruct (run_refines N (Enqueue <$> vs) [] (initial N))
        as (q & Hrun & _ & Ht); [lia | apply initial_holds; lia | | ].
      { rewrite length_fmap. simpl. lia. }
      rewrite Hfill in Hrun. injection Hrun as _ <-.
      rewrite length_fmap in Ht. simpl in Ht. lia. }
    exists q2. rewrite run_app, Hfill, Hdrain. split; [done | ].
    destruct Hq2 as (_ & _ & Ht2 & _). simpl in Ht2. lia.
Qed.

(** What a queue of capacity 1 does in every reachable state: it accepts
    the value, and a dequeue that follows delivers that value exactly when
    the queue was empty before; otherwise the dequeue is refused. *)
Theorem capacity_one_behaviour sizeof_Item heap q v out :
  reachable sizeof_Item heap 1 q ->
  exists q1, try_enqueue v q = Done (true, q1) /\
    (m_head q = m_tail q ->
       exists q2, try_dequeue out q1 = Done ((true, v), q2)) /\
    (m_head q <> m_tail q -> try_dequeue out q1 = Done ((false, out), q1)).
Proof.
  intros Hq. apply reachable_sound in Hq as [[[HN _] | [_ Hq]] Hw]; [lia | | lia].
  destruct Hq as (Hcap & Hht & x & Hitems & Hx).
  destruct q as [items c h t]; simpl in *. subst c items.
  erewrite try_enqueue_eval; [ | lia | by rewrite Z.mod_1_r ].
  simpl. rewrite Z.eqb_refl, Z.mod_1_r, add64_small by lia. simpl.
  eexists. split; [done | ].
  split; intros Hht'.
  - erewrite try_dequeue_eval; [ | lia | by rewrite Z.mod_1_r ].
    simpl. rewrite add64_small by lia. subst h. rewrite Z.eqb_refl. eauto.
  - erewrite try_dequeue_eval; [ | lia | by rewrite Z.mod_1_r ].
    simpl. rewrite add64_small by lia.
    by rewrite (proj2 (Z.eqb_neq _ _)) by lia.
Qed.

(** In a queue of capacity 1 the only slot holds the value accepted last,
    and the values delivered in a run are those accepted at the positions
    from the old [m_head] to the new one. *)
Lemma single_run_delivers ops q acc :
  single q -> m_tail q = Z.of_nat (length acc) ->
  (forall x, m_items q = Some [mkItem (m_tail q) x] -> x = last acc) ->
  m_tail q + Z.of_nat (length ops) + 1 <= two64 ->
  exists rs q', run ops q = Done (rs, q') /\
    m_head q <= m_head q' /\
    delivered rs = drop (Z.to_nat (m_head q))
                        (take (Z.to_nat (m_head q')) (acc ++ accepted ops rs)).
Proof.
  revert q acc. induction ops as [ | o ops IH]; intros q acc Hq Ht Hlast Hw.
  - exists [], q. rewrite run_nil. split; [done | ]. split; [lia | ].
    simpl. rewrite drop_ge; [done | ]. rewrite length_take. lia.
  - rewrite length_cons in Hw.
    pose proof Hq as (Hcap & Hht & x & Hitems & Hx).
    specialize (Hlast x Hitems).
    destruct q as [items c h t];
      cbn [m_items m_capacity m_head m_tail length] in *. subst c items.
    destruct o as [v | out].
    + destruct (IH (mkQueue (Some [mkItem (t + 1) (Some v)]) 1 h (t + 1)) (acc ++ [v]))
        as (rs & q' & Hrun & Hh & Hdel).
      * unfold single; simpl. repeat split; try lia. eauto.
      * simpl. rewrite length_app. simpl. lia.
      * simpl. intros y [= <-]. by rewrite last_snoc.
      * simpl. lia.
      * exists (Enqueued true :: rs), q'. rewrite run_cons, call_enqueue.
        erewrite try_enqueue_eval; [ | lia | by rewrite Z.mod_1_r ].
        simpl. rewrite Z.eqb_refl, Z.mod_1_r, add64_small by lia. simpl.
        rewrite Hrun. split; [done | ]. split; [done | ].
        simpl in Hdel. by rewrite <- app_assoc in Hdel.
    + rewrite run_cons, call_dequeue.
      erewrite try_dequeue_eval; [ | lia | by rewrite Z.mod_1_r ].
      simpl. rewrite Z.mod_1_r, !add64_small by lia. simpl.
      destruct (t =? h + 1) eqn:Heq.
      * apply Z.eqb_eq in Heq. destruct Hx as [w ->]; [lia | ].
        destruct (IH (mkQueue (Some [mkItem (h + 1) (Some w)]) 1 (h + 1) t) acc)
          as (rs & q' & Hrun & Hh & Hdel).
        -- unfold single; simpl. repeat split; try lia. rewrite Heq. eauto.
        -- done.
        -- simpl. rewrite Heq. by intros y [= <-].
        -- simpl. lia.
        -- rewrite Hrun. exists (Dequeued true w :: rs), q'.
           split; [done | ]. simpl in *. split; [lia | ].
           rewrite Hdel.
           rewrite (drop_S _ w (Z.to_nat h)).
           ++ do 2 f_equal. lia.
           ++ rewrite lookup_take_lt by lia.
              rewrite lookup_app_l by lia.
              rewrite last_lookup in Hlast. rewrite Hlast. f_equal. lia.
      * destruct (IH (mkQueue (Some [mkItem t x]) 1 h t) acc)
          as (rs & q' & Hrun & Hh & Hdel); [done | done | | simpl; lia | ].
        { simpl. by intros y [= <-]. }
        rewrite Hrun. exists (Dequeued false out :: rs), q'. by simpl in *.
Qed.

(** Whatever its capacity, a queue never delivers a value it did not
    accept, never delivers one twice and never delivers out of order: the
    values delivered in a run are a prefix of the values accepted in it. *)
Theorem delivered_prefix_of_accepted sizeof_Item heap N q0 ops :
  1 <= N -> construct sizeof_Item heap N = Done q0 ->
  Z.of_nat (length ops) + N <= two64 ->
  exists rs q, run ops q0 = Done (rs, q) /\
               delivered rs `prefix_of` accepted ops rs.
Proof.
  intros HN Hq0 Hw. apply construct_done in Hq0 as ->; [ | lia].
  destruct (decide (N = 1)) as [-> | Hne].
  - destruct (single_run_delivers ops (initial 1) [])
      as (rs & q & Hrun & _ & Hdel).
    + assert (sound 1 (initial (T:=T) 1)) as [[? _] | [_ ?]]
        by (apply initial_sound; lia); [lia | done].
    + done.
    + simpl. by intros x [= <-].
    + simpl. lia.
    + exists rs, q. split; [done | ]. rewrite Hdel. simpl. apply prefix_take.
  - destruct (run_refines N ops [] (initial N)) as (q & Hrun & _);
      [lia | apply initial_holds; lia | simpl; lia | ].
    pose proof (fifo_run_conserves N ops []) as Hcons.
    destruct (fifo_run N ops []) as [rs rest]; simpl in *.
    exists rs, q. split; [done | ]. by exists rest.
Qed.

(** In single-threaded use a refusal is not ambiguous: with at least two
    slots, [try_enqueue] is refused exactly when [N] values are held, and
    [try_dequeue] exactly when none is. *)
Theorem refusal_means_full_or_empty sizeof_Item heap N q v out :
  2 <= N -> reachable sizeof_Item heap N q ->
  (try_enqueue v q = Done (false, q) <-> m_tail q = m_head q + N) /\
  (try_dequeue out q = Done ((false, out), q) <-> m_head q = m_tail q).
Proof.
  intros HN Hq. apply reachable_holds in Hq as [[vs Hq] Hw]; [ | done].
  pose proof Hq as (_ & Hh & Ht & Hlen & _). split.
  - destruct (Z.ltb_spec (Z.of_nat (length vs)) N) as [Hroom | Hfull].
    + destruct (enqueue_room N vs q v) as (q' & -> & _); [lia | done | done | lia | ].
      split; [done | lia].
    + rewrite (enqueue_full N vs q v) by (done || lia). split; [lia | done].
  - destruct vs as [ | w vs].
    + rewrite (dequeue_none N q out) by (done || lia). simpl in Ht. split; [lia | done].
    + destruct (dequeue_some N w vs q out) as (q' & -> & _); [lia | done | lia | ].
      simpl in Ht. split; [done | lia].
Qed.

(** ** Capacities that divide [2^64] *)

Lemma mod64_index N a : 0 < N -> (N | two64) -> (a mod two64) mod N = a mod N.
Proof.
  intros HN Hdiv. apply Z.mod_mod_divide. done.
Qed.

Lemma mod64_apart a d : 0 < d < two64 -> (a + d) mod two64 <> a mod two64.
Proof.
  intros Hd Heq. apply (ring_index_inj two64) in Heq; [lia | apply two64_pos | lia].
Qed.

Lemma add64_mod a b : add64 (a mod two64) b = (a + b) mod two64.
Proof. unfold add64. by rewrite Zplus_mod_idemp_l. Qed.

Lemma initial_holds_mod N : 0 < N <= two64 -> holds_mod N 0 [] (initial (T:=T) N).
Proof.
  intros HN. destruct (initial_holds N) as (? & ? & ? & ? & cells & ? & ? & ? & Hfree);
    [lia | ].
  unfold holds_mod. repeat split; try done.
  exists cells. repeat split; try done.
  intros n Hn. destruct (Hfree n) as (it & ? & ?); [done | ].
  exists it. split; [done | ]. simpl in Hn. rewrite Z.mod_small; lia.
Qed.

Lemma call_refines_mod N H vs q o :
  2 <= N < two64 -> (N | two64) -> holds_mod N H vs q ->
  exists q' H', call o q = Done ((fifo_call N o vs).1, q') /\
                holds_mod N H' (fifo_call N o vs).2 q'.
Proof.
  intros HN Hdiv (Hcap & HH & Hh & Ht & Hlen & cells & Hitems & Hcells & Hfull & Hfree).
  destruct q as [items c h t]; cbn [m_items m_capacity m_head m_tail] in *.
  subst c items h t.
  destruct o as [v | out]; unfold fifo_call.
  - rewrite call_enqueue.
    destruct (Z.ltb_spec (Z.of_nat (length vs)) N) as [Hroom | Hroom].
    + destruct (Hfree (H + Z.of_nat (length vs))) as (it & Hit & Hver); [lia | ].
      erewrite try_enqueue_eval; [ | lia | by rewrite mod64_index by (done || lia) ].
      rewrite Hver, Z.eqb_refl, add64_mod, mod64_index by (done || lia).
      eexists. exists H. split; [done | ].
      unfold holds_mod; cbn [m_items m_capacity m_head m_tail fst snd].
      rewrite length_app; simpl. repeat split; try lia.
      { f_equal. lia. }
      eexists. split; [done | ]. rewrite length_insert. split; [done | ]. split.
      * intros k w Hk. apply lookup_app_Some in Hk as [Hk | [Hge Hk]].
        -- rewrite list_lookup_insert_ne; [by apply Hfull | ].
           apply lookup_lt_Some in Hk. apply ring_index_ne; lia.
        -- apply list_lookup_singleton_Some in Hk as [Hk ->].
           replace (H + Z.of_nat k) with (H + Z.of_nat (length vs)) by lia.
           apply list_lookup_insert_eq. by eapply lookup_lt_Some.
      * intros n Hn. rewrite list_lookup_insert_ne; [apply Hfree; lia | ].
        apply ring_index_ne; lia.
    + assert (Z.of_nat (length vs) = N) as HlenN by lia.
      destruct (lookup_lt_is_Some_2 vs 0) as [v0 Hv0]; [lia | ].
      pose proof (Hfull 0%nat v0 Hv0) as Hit.
      rewrite Z.add_0_r in Hit. rewrite HlenN.
      erewrite try_enqueue_eval; [ | lia | ].
      2:{ rewrite mod64_index, ring_index_shift by (done || lia). exact Hit. }
      cbn [version]. rewrite (proj2 (Z.eqb_neq _ _)).
      * eexists. exists H. split; [done | ].
        unfold holds_mod; cbn [m_items m_capacity m_head m_tail fst snd].
        rewrite HlenN. repeat split; try lia.
        exists cells. repeat split; try done. intros n Hn. lia.
      * replace (H + N) with (H + 1 + (N - 1)) by lia.
        intros Heq. symmetry in Heq. revert Heq. apply mod64_apart. lia.
  - rewrite call_dequeue. destruct vs as [ | v vs].
    + destruct (Hfree H) as (it & Hit & Hver); [simpl; lia | ].
      erewrite try_dequeue_eval; [ | lia | by rewrite mod64_index by (done || lia) ].
      rewrite Hver, add64_mod, (proj2 (Z.eqb_neq _ _)).
      * eexists. exists H. split; [done | ].
        unfold holds_mod; cbn [m_items m_capacity m_head m_tail fst snd].
        repeat split; try done.
        exists cells. repeat split; done.
      * intros Heq. symmetry in Heq. revert Heq. apply mod64_apart.
        pose proof two64_pos. unfold two64 in *. lia.
    + pose proof (Hfull 0%nat v eq_refl) as Hit. simpl in Hit.
      rewrite Z.add_0_r in Hit.
      erewrite try_dequeue_eval; [ | lia | by rewrite mod64_index by (done || lia) ].
      cbn [version value]. rewrite !add64_mod, Z.eqb_refl, mod64_index by (done || lia).
      eexists. exists (H + 1). split; [done | ].
      unfold holds_mod; cbn [m_items m_capacity m_head m_tail fst snd].
      simpl in Hlen. repeat split; try lia.
      { f_equal. simpl. lia. }
      eexists. split; [done | ]. rewrite length_insert. split; [done | ]. split.
      * intros k w Hk. rewrite list_lookup_insert_ne.
        -- replace (H + 1 + Z.of_nat k) with (H + Z.of_nat (S k)) by lia.
           by apply Hfull.
        -- apply lookup_lt_Some in Hk. apply ring_index_ne; lia.
      * intros n Hn. destruct (decide (n = H + N)) as [-> | Hne].
        -- rewrite ring_index_shift by lia. eexists. split.
           ++ apply list_lookup_insert_eq. by eapply lookup_lt_Some.
           ++ done.
        -- rewrite list_lookup_insert_ne; [apply Hfree; simpl; lia | ].
           apply ring_index_ne; lia.
Qed.

Lemma run_refines_mod N H ops vs q :
  2 <= N < two64 -> (N | two64) -> holds_mod N H vs q ->
  exists q' H', run ops q = Done ((fifo_run N ops vs).1, q') /\
                holds_mod N H' (fifo_run N ops vs).2 q'.
Proof.
  intros HN Hdiv. revert H vs q.
  induction ops as [ | o ops IH]; intros H vs q Hq.
  - exists q, H. by rewrite run_nil.
  - destruct (call_refines_mod N H vs q o) as (q1 & H1 & Hcall & Hq1); [done.. | ].
    cbn [fifo_run]. destruct (fifo_call N o vs) as [r vs1]; cbn [fst snd] in *.
    destruct (IH H1 vs1 q1 Hq1) as (q2 & H2 & Hrun & Hq2).
    destruct (fifo_run N ops vs1) as [rs vs2]; cbn [fst snd] in *.
    exists q2, H2. by rewrite run_cons, Hcall, Hrun.
Qed.

(** When the capacity is a power of two, at least 2, the wrap of the 64-bit
    counters does no harm: every run, of any length, is answered the way
    the bounded FIFO of capacity [N] answers it. *)
Theorem power_of_two_refines_fifo sizeof_Item heap N q0 ops :
  2 <= N -> (N | two64) -> construct sizeof_Item heap N = Done q0 ->
  exists q, run ops q0 = Done ((fifo_run N ops []).1, q).
Proof.
  intros HN Hdiv Hq0.
  assert (N < two64) as Hbound by (eapply construct_capacity_bound; [ | done]; lia).
  apply construct_done in Hq0 as ->; [ | lia].
  destruct (run_refines_mod N 0 ops [] (initial N)) as (q & H & Hrun & _);
    [lia | done | apply initial_holds_mod; lia | ].
  eauto.
Qed.

End Properties.

(** * Instances

    The results above, applied to queues of naturals and of strings with
    64-byte items and an allocator that grants every request. *)

Lemma capacity_fixed_witness :
  m_capacity (mkQueue (Some [mkItem 1 (Some 7%nat); mkItem 1 None; mkItem 2 None]) 3 0 1)
  = m_capacity (initial (T:=nat) 3) /\
  capacity (mkQueue (Some [mkItem 1 (Some 7%nat); mkItem 1 None; mkItem 2 None]) 3 0 1)
  = Done (3, mkQueue (Some [mkItem 1 (Some 7%nat); mkItem 1 None; mkItem 2 None]) 3 0 1).
Proof.
  apply (capacity_fixed 64 grant 3 (initial 3) [Enqueue 7%nat] [Enqueued true]);
    vm_compute; reflexivity.
Defined.

Lemma dequeue_empty_witness :
  try_dequeue 0%nat (mkQueue (Some [mkItem 2 (Some 7%nat); mkItem 1 None]) 2 1 1)
  = Done ((false, 0%nat), mkQueue (Some [mkItem 2 (Some 7%nat); mkItem 1 None]) 2 1 1).
Proof.
  apply (dequeue_empty 64 grant 2); [lia | | reflexivity].
  exists (initial 2), [Enqueue 7%nat; Dequeue 0%nat],
    [Enqueued true; Dequeued true 7%nat].
  evaluate.
Defined.

Lemma counters_monotone_witness :
  exists r q', call (Enqueue 5%nat) (initial 2) = Done (r, q') /\
               counters_step r (initial 2) q' /\
               m_head (initial (T:=nat) 2) <= m_head q' /\
               m_tail (initial (T:=nat) 2) <= m_tail q'.
Proof.
  apply (counters_monotone 64 grant 2); [lia | ].
  exists (initial 2), [], []. evaluate.
Defined.

Lemma construct_spec_witness :
  (grant (64 * 4) = true ->
     exists q, construct (T:=nat) 64 grant 4 = Done q /\
               m_capacity q = 4 /\ m_head q = 0 /\ m_tail q = 0 /\
               forall i, 0 <= i < 4 -> slot_version q i = Some i) /\
  (grant (64 * 4) = false -> construct (T:=nat) 64 grant 4 = Undefined).
Proof.
  apply (construct_spec 64 grant 4); [lia | lia | vm_compute; reflexivity].
Defined.

(** With 64-byte items and [2^58 + 1] slots the size wraps to 64 bytes: the
    allocator grants that request, and the loop then runs past the single
    item of the block.  Construction does not complete although no
    allocation failed. *)
Lemma construct_overflow :
  ~ (construct (T:=nat) 64 grant (2 ^ 58 + 1) = Undefined ->
     grant (mul64 64 (2 ^ 58 + 1)) = false).
Proof.
  intros H. enough (grant (mul64 64 (2 ^ 58 + 1)) = false) by done.
  apply H. rewrite construct_eval by lia.
  unfold grant at 1. cbv iota.
  apply decide_False. unfold raw_block. rewrite length_replicate.
  assert (mul64 64 (2 ^ 58 + 1) / 64 = 1) as -> by (vm_compute; reflexivity).
  lia.
Qed.

Lemma scenario_capacity_four_witness :
  exists q4 q5 q6 q7 q8,
    run [Enqueue "A"; Enqueue "B"; Enqueue "C"; Enqueue "D"] (initial 4)
      = Done ([Enqueued true; Enqueued true; Enqueued true; Enqueued true], q4) /\
    try_enqueue "E" q4 = Done (false, q4) /\
    holds 4 ["A"; "B"; "C"; "D"] q4 /\
    try_dequeue "x" q4 = Done ((true, "A"), q5) /\
    try_enqueue "E" q5 = Done (true, q6) /\
    run [Dequeue "x"; Dequeue "x"; Dequeue "x"] q6
      = Done ([Dequeued true "B"; Dequeued true "C"; Dequeued true "D"], q7) /\
    try_dequeue "x" q7 = Done ((true, "E"), q8) /\
    try_dequeue "x" q8 = Done ((false, "x"), q8).
Proof.
  apply (scenario_capacity_four 64 grant (initial 4) "A" "B" "C" "D" "E" "x").
  vm_compute. reflexivity.
Defined.

(** ** Instances of the further results *)

Lemma queue_refines_fifo_witness :
  exists q,
    run [Enqueue 1%nat; Enqueue 2%nat; Enqueue 3%nat; Dequeue 0%nat] (initial 2)
    = Done ((fifo_run 2 [Enqueue 1%nat; Enqueue 2%nat; Enqueue 3%nat; Dequeue 0%nat]
               []).1, q) /\
    holds 2 (fifo_run 2 [Enqueue 1%nat; Enqueue 2%nat; Enqueue 3%nat; Dequeue 0%nat]
               []).2 q.
Proof.
  apply (queue_refines_fifo 64 grant 2); [lia | vm_compute; reflexivity | ].
  vm_compute. discriminate.
Defined.

Lemma fill_then_refuse_witness :
  exists q, run (Enqueue <$> [1%nat; 2%nat; 3%nat]) (initial 3)
            = Done (replicate (length [1%nat; 2%nat; 3%nat]) (Enqueued true), q) /\
            try_enqueue 4%nat q = Done (false, q).
Proof.
  apply (fill_then_refuse 64 grant 3); [lia | vm_compute; reflexivity | reflexivity].
Defined.

Lemma fifo_order_witness :
  exists rs q rest q',
    run [Enqueue 1%nat; Enqueue 2%nat; Dequeue 0%nat; Enqueue 3%nat] (initial 2)
      = Done (rs, q) /\
    accepted [Enqueue 1%nat; Enqueue 2%nat; Dequeue 0%nat; Enqueue 3%nat] rs
      = delivered rs ++ rest /\
    run (replicate (length rest) (Dequeue 0%nat)) q
      = Done (Dequeued true <$> rest, q') /\
    try_dequeue 0%nat q' = Done ((false, 0%nat), q').
Proof.
  apply (fifo_order 64 grant 2); [lia | vm_compute; reflexivity | ].
  vm_compute. reflexivity.
Defined.

Lemma slot_lifecycle_witness :
  (forall n, slot_version (initial (T:=nat) 2) (n mod 2) = Some n
             <-> m_tail (initial (T:=nat) 2) <= n < m_head (initial (T:=nat) 2) + 2) /\
  (forall n, slot_version (initial (T:=nat) 2) (n mod 2) = Some (n + 1)
             <-> m_head (initial (T:=nat) 2) <= n < m_tail (initial (T:=nat) 2)) /\
  (forall v, (exists q', try_enqueue v (initial (T:=nat) 2) = Done (true, q'))
             <-> slot_version (initial (T:=nat) 2) (m_tail (initial (T:=nat) 2) mod 2)
                 = Some (m_tail (initial (T:=nat) 2))) /\
  (forall out, (exists w q', try_dequeue out (initial (T:=nat) 2) = Done ((true, w), q'))
               <-> slot_version (initial (T:=nat) 2) (m_head (initial (T:=nat) 2) mod 2)
                   = Some (m_head (initial (T:=nat) 2) + 1)) /\
  (forall out w q', try_dequeue out (initial (T:=nat) 2) = Done ((true, w), q') ->
     slot_version q' (m_head (initial (T:=nat) 2) mod 2)
     = Some (m_head (initial (T:=nat) 2) + 2)).
Proof.
  apply (slot_lifecycle 64 grant 2); [lia | ].
  exists (initial 2), [], []. evaluate.
Defined.

Lemma occupancy_bounded_witness :
  m_head (mkQueue (Some [mkItem 1 (Some 7%nat); mkItem 1 None]) 2 0 1)
  <= m_tail (mkQueue (Some [mkItem 1 (Some 7%nat); mkItem 1 None]) 2 0 1)
  <= m_head (mkQueue (Some [mkItem 1 (Some 7%nat); mkItem 1 None]) 2 0 1) + 2.
Proof.
  apply (occupancy_bounded 64 grant 2); [lia | ].
  exists (initial 2), [Enqueue 7%nat], [Enqueued true]. evaluate.
Defined.

Lemma run_defined_witness :
  exists rs q cells,
    run [Dequeue 0%nat; Enqueue 1%nat; Enqueue 2%nat] (initial 1) = Done (rs, q) /\
    length rs = length [Dequeue 0%nat; Enqueue 1%nat; Enqueue 2%nat] /\
    m_items q = Some cells /\ Z.of_nat (length cells) = 1.
Proof.
  apply (run_defined 64 grant 1); [lia | vm_compute; reflexivity | ].
  vm_compute. discriminate.
Defined.

Lemma refused_call_changes_nothing_witness :
  (Dequeued false 0%nat = Enqueued false -> initial (T:=nat) 2 = initial 2) /\
  (forall w, Dequeued false 0%nat = Dequeued false w ->
             initial (T:=nat) 2 = initial 2 /\ Dequeue 0%nat = Dequeue w).
Proof.
  apply (refused_call_changes_nothing (Dequeue 0%nat) (initial 2)).
  vm_compute. reflexivity.
Defined.

Lemma storage_fixed_witness :
  length <$> m_items (mkQueue (Some [mkItem 1 (Some 7%nat); mkItem 1 None]) 2 0 1)
  = length <$> m_items (initial (T:=nat) 2).
Proof.
  apply (storage_fixed [Enqueue 7%nat] (initial 2) [Enqueued true]).
  vm_compute. reflexivity.
Defined.

Lemma construction_size_wraps_witness :
  construct (T:=nat) 64 grant (2 ^ 58 + 1) = Undefined.
Proof.
  apply construction_size_wraps; [lia | lia | unfold two64; lia].
Defined.

Lemma counters_count_witness :
  exists rs q,
    run [Enqueue 1%nat; Enqueue 2%nat; Enqueue 3%nat; Dequeue 0%nat] (initial 2)
      = Done (rs, q) /\
    m_tail q = Z.of_nat (length (accepted
                 [Enqueue 1%nat; Enqueue 2%nat; Enqueue 3%nat; Dequeue 0%nat] rs)) /\
    m_head q = Z.of_nat (length (delivered rs)).
Proof.
  apply (counters_count 64 grant 2); [lia | vm_compute; reflexivity | ].
  vm_compute. discriminate.
Defined.

Lemma fill_drain_round_trip_witness :
  exists q,
    run ((Enqueue <$> [1%nat; 2%nat; 3%nat])
         ++ replicate (length [1%nat; 2%nat; 3%nat]) (Dequeue 0%nat)) (initial 4)
    = Done (replicate (length [1%nat; 2%nat; 3%nat]) (Enqueued true)
            ++ (Dequeued true <$> [1%nat; 2%nat; 3%nat]), q) /\
    m_head q = m_tail q.
Proof.
  apply (fill_drain_round_trip 64 grant 4);
    [lia | vm_compute; reflexivity | vm_compute; discriminate | vm_compute; reflexivity].
Defined.

Lemma capacity_one_behaviour_witness :
  exists q1, try_enqueue 5%nat (initial 1) = Done (true, q1) /\
    (m_head (initial (T:=nat) 1) = m_tail (initial (T:=nat) 1) ->
       exists q2, try_dequeue 0%nat q1 = Done ((true, 5%nat), q2)) /\
    (m_head (initial (T:=nat) 1) <> m_tail (initial (T:=nat) 1) ->
       try_dequeue 0%nat q1 = Done ((false, 0%nat), q1)).
Proof.
  apply (capacity_one_behaviour 64 grant).
  exists (initial 1), [], []. evaluate.
Defined.

Lemma delivered_prefix_of_accepted_witness :
  exists rs q,
    run [Enqueue 1%nat; Enqueue 2%nat; Dequeue 0%nat; Enqueue 3%nat; Dequeue 0%nat]
        (initial 1) = Done (rs, q) /\
    delivered rs `prefix_of`
      accepted [Enqueue 1%nat; Enqueue 2%nat; Dequeue 0%nat; Enqueue 3%nat; Dequeue 0%nat]
               rs.
Proof.
  apply (delivered_prefix_of_accepted 64 grant 1); [lia | vm_compute; reflexivity | ].
  vm_compute. discriminate.
Defined.

Lemma refusal_means_full_or_empty_witness :
  (try_enqueue 5%nat (initial 2) = Done (false, initial 2)
   <-> m_tail (initial (T:=nat) 2) = m_head (initial (T:=nat) 2) + 2) /\
  (try_dequeue 0%nat (initial 2) = Done ((false, 0%nat), initial 2)
   <-> m_head (initial (T:=nat) 2) = m_tail (initial (T:=nat) 2)).
Proof.
  apply (refusal_means_full_or_empty 64 grant 2); [lia | ].
  exists (initial 2), [], []. evaluate.
Defined.

Lemma power_of_two_refines_fifo_witness :
  exists q,
    run [Enqueue 1%nat; Enqueue 2%nat; Enqueue 3%nat; Dequeue 0%nat] (initial 2)
    = Done ((fifo_run 2 [Enqueue 1%nat; Enqueue 2%nat; Enqueue 3%nat; Dequeue 0%nat]
               []).1, q).
Proof.
  apply (power_of_two_refines_fifo 64 grant 2); [lia | | vm_compute; reflexivity].
  exists (2 ^ 63). vm_compute. reflexivity.
Defined.
